(** * aws-test-helpers: the invocation engine, the queue client and the
      poll orchestrator

    A shallow embedding of [LambdaHelper.invokeLambda],
    [SqsHelper.getMessages], [SqsHelper.getJsonMessages],
    [SqsHelper.upsertQueue] and [SqsLambdaHelper.runSqsLambda], together
    with the properties their specification states about them. *)

From stdpp Require Import gmap strings list fin_maps pretty.
From Stdlib Require Import ZArith.

Local Open Scope string_scope.
Local Open Scope list_scope.

(** * JavaScript values

    The values a handler can hand to the engine.  Numbers are integers
    (no NaN, no fractions); [JObject] stands for any object that is not a
    thenable, an [Error] instance for example; the last three constructors
    are thenables, told apart by what becomes of them. *)
Inductive JsValue : Type :=
| JUndefined
| JNull
| JBool (b : bool)
| JNum (n : Z)
| JStr (s : string)
| JObject (ref : nat)
| JFulfilling (v : JsValue)
| JRejecting (e : JsValue)
| JPending.

(** [if (v)]: the ToBoolean conversion. *)
Definition truthy (v : JsValue) : bool :=
  match v with
  | JUndefined | JNull => false
  | JBool b => b
  | JNum n => negb (n =? 0)%Z
  | JStr s => negb (String.eqb s "")
  | JObject _ | JFulfilling _ | JRejecting _ | JPending => true
  end.

(** [v === s] for a string literal [s]. *)
Definition strictEqStr (v : JsValue) (s : string) : bool :=
  match v with
  | JStr s' => String.eqb s' s
  | _ => false
  end.

Module LambdaHelper.

(** The string the timer rejects with. *)
Definition TIMEOUT_REASON : string := "lambda-helper-timeout".

Inductive InvokeLambdaOutput : Type :=
| SuccessfulInvokeLambdaOutput (result : JsValue)
| FailedInvokeLambdaOutput (error : JsValue) (timeout : bool).

(** ** The promise and the two idempotent closures *)

Inductive PromiseState : Type :=
| Pending
| ResolvedWith (v : JsValue)
| RejectedWith (e : JsValue).

Inductive TimeoutHandle : Type := TimerHandle.

(** The variables [invokeLambda] closes over: [promiseSettled],
    [timeoutId], the promise itself, and whether the reactions
    [result.then(resolve, reject)] are waiting on the handler's
    promise. *)
Record Invocation : Type := {
  promiseSettled : bool;
  timeoutId : option TimeoutHandle;
  promise : PromiseState;
  thenAttached : bool;
}.

(** The resolving functions of a native promise: the first call wins. *)
Definition innerResolve (v : JsValue) (p : PromiseState) : PromiseState :=
  match p with Pending => ResolvedWith v | _ => p end.

Definition innerReject (e : JsValue) (p : PromiseState) : PromiseState :=
  match p with Pending => RejectedWith e | _ => p end.

(** [if (timeoutId) { clearTimeout(timeoutId); timeoutId = null; }] *)
Definition clearTimer (st : Invocation) : Invocation :=
  match timeoutId st with
  | Some _ =>
      {| promiseSettled := promiseSettled st; timeoutId := None;
         promise := promise st; thenAttached := thenAttached st |}
  | None => st
  end.

Definition resolve (result : JsValue) (st : Invocation) : Invocation :=
  let st := clearTimer st in
  if promiseSettled st then st
  else {| promiseSettled := true; timeoutId := timeoutId st;
          promise := innerResolve result (promise st);
          thenAttached := thenAttached st |}.

Definition reject (error : JsValue) (st : Invocation) : Invocation :=
  let st := clearTimer st in
  if promiseSettled st then st
  else {| promiseSettled := true; timeoutId := timeoutId st;
          promise := innerReject error (promise st);
          thenAttached := thenAttached st |}.

(** [callback(error, result)] *)
Definition callback (error result : JsValue) (st : Invocation) : Invocation :=
  if truthy error then reject error st else resolve result st.

(** The timer's function.  A timer that was cleared never runs. *)
Definition onTimeout (st : Invocation) : Invocation :=
  match timeoutId st with
  | Some _ =>
      reject (JStr TIMEOUT_REASON)
        {| promiseSettled := promiseSettled st; timeoutId := None;
           promise := promise st; thenAttached := thenAttached st |}
  | None => st
  end.

(** ** Handlers

    A handler is known to the engine by what it does to it: the calls
    it makes on the callback and on the context while it runs, how its
    synchronous run ends, and what happens afterwards, in order. *)

Inductive Call : Type :=
| CallbackCall (error result : JsValue)
| ContextDone (error result : JsValue)
| ContextFail (error : JsValue)
| ContextSucceed (result : JsValue).

Inductive Completion : Type :=
| Returns (v : JsValue)       (* a value that is not [instanceof Promise] *)
| ReturnsPromise              (* a native promise *)
| Throws (e : JsValue).

Inductive AsyncEvent : Type :=
| TimerFires
| PromiseFulfils (v : JsValue)
| PromiseRejects (e : JsValue)
| LateCall (c : Call).

Record Behaviour : Type := {
  sync_calls : list Call;
  completion : Completion;
  later : list AsyncEvent;
}.

Record InvokeLambdaInput (TEvent : Type) : Type := {
  event : TEvent;
  handler : TEvent → Behaviour;
  timeout : Z;
}.
Arguments event {TEvent} _.
Arguments handler {TEvent} _.
Arguments timeout {TEvent} _.



(** The context object of [#createContext]: [done], [fail] and
    [succeed] all go through the callback. *)
Definition call (c : Call) (st : Invocation) : Invocation :=
  match c with
  | CallbackCall error result => callback error result st
  | ContextDone error result => callback error result st
  | ContextFail error => callback error JUndefined st
  | ContextSucceed result => callback JNull result st
  end.

(** The reactions registered by [result.then(resolve, reject)] run at
    most once, and only if they were registered. *)
Definition detach (st : Invocation) : Invocation :=
  {| promiseSettled := promiseSettled st; timeoutId := timeoutId st;
     promise := promise st; thenAttached := false |}.

Definition deliver (a : AsyncEvent) (st : Invocation) : Invocation :=
  match a with
  | TimerFires => onTimeout st
  | PromiseFulfils v =>
      if thenAttached st then resolve v (detach st) else st
  | PromiseRejects e =>
      if thenAttached st then reject e (detach st) else st
  | LateCall c => call c st
  end.

(** The [try { ... } catch (error) { reject(error) }] around the
    handler's synchronous run. *)
Definition complete (c : Completion) (st : Invocation) : Invocation :=
  match c with
  | Returns _ => st
  | ReturnsPromise =>
      {| promiseSettled := promiseSettled st; timeoutId := timeoutId st;
         promise := promise st; thenAttached := true |}
  | Throws e => reject e st
  end.

(** [await]: a promise resolved with a thenable follows it. *)
Fixpoint follow (v : JsValue) : option (JsValue + JsValue) :=
  match v with
  | JFulfilling v' => follow v'
  | JRejecting e => Some (inr e)
  | JPending => None
  | _ => Some (inl v)
  end.

Definition awaitPromise (p : PromiseState) : option (JsValue + JsValue) :=
  match p with
  | Pending => None
  | ResolvedWith v => follow v
  | RejectedWith e => Some (inr e)
  end.

(** State right after [timeoutId = setTimeout(...)]. *)
Definition started : Invocation :=
  {| promiseSettled := false; timeoutId := Some TimerHandle;
     promise := Pending; thenAttached := false |}.

Definition run (b : Behaviour) : Invocation :=
  let st := fold_left (λ st c, call c st) (sync_calls b) started in
  let st := complete (completion b) st in
  let st := fold_left (λ st a, deliver a st) (later b) st in
  (* a timer nobody cleared fires in the end *)
  onTimeout st.

Definition output (p : PromiseState) : option InvokeLambdaOutput :=
  match awaitPromise p with
  | None => None
  | Some (inl result) => Some (SuccessfulInvokeLambdaOutput result)
  | Some (inr error) =>
      Some (FailedInvokeLambdaOutput
              (if negb (strictEqStr error TIMEOUT_REASON) then error
               else JUndefined)
              (strictEqStr error TIMEOUT_REASON))
  end.

(** [None]: the awaited promise never settles and the call never
    returns. *)
Definition invokeLambda {TEvent} (input : InvokeLambdaInput TEvent)
  : option InvokeLambdaOutput :=
  output (promise (run (handler input (event input)))).

End LambdaHelper.

(** * Thrown values

    What the queue client and the orchestrator tell apart in a thrown
    value: its class (for [instanceof]) and its [name]. *)
Inductive ErrorClass : Type :=
| QueueDoesNotExist
| QueueNameExists
| SyntaxError
| PlainError      (* [Error] itself or any other subclass of it *)
| NotAnError.     (* a thrown value that is not [instanceof Error] *)

Record Exception : Type := {
  class : ErrorClass;
  name : string;
  message : string;
}.

Definition instanceofError (e : Exception) : bool :=
  match class e with NotAnError => false | _ => true end.

Definition instanceofQueueDoesNotExist (e : Exception) : bool :=
  match class e with QueueDoesNotExist => true | _ => false end.

Definition instanceofQueueNameExists (e : Exception) : bool :=
  match class e with QueueNameExists => true | _ => false end.

(** The error the SDK raises when a request is aborted. *)
Definition AbortError : Exception :=
  {| class := PlainError; name := "AbortError"; message := "Request aborted" |}.

Inductive AbortSignal : Type := Signal (id : nat).

Module SqsHelper.

Record Message : Type := {
  MessageId : option string;
  ReceiptHandle : option string;
  Body : option string;
  MD5OfBody : option string;
  Attributes : option (gmap string string);
}.

(** ** Commands of the queue service and their outputs *)

Record ReceiveMessageInput : Type := {
  MaxNumberOfMessages : Z;
  rm_QueueUrl : string;
  VisibilityTimeout : option Z;
  WaitTimeSeconds : Z;
}.

Record DeleteMessageBatchEntry : Type := {
  Id : option string;
  entry_ReceiptHandle : option string;
}.

Record CreateQueueInput : Type := {
  QueueName : string;
  cq_Attributes : option (gmap string string);
}.

Inductive Command : Type :=
| CreateQueueCommand (input : CreateQueueInput)
| DeleteMessageBatchCommand (QueueUrl : string)
    (Entries : list DeleteMessageBatchEntry)
| DeleteQueueCommand (QueueUrl : option string)
| GetQueueAttributesCommand (AttributeNames : list string) (QueueUrl : string)
| GetQueueUrlCommand (QueueName : string)
| ReceiveMessageCommand (input : ReceiveMessageInput).

(** The part of each command's output that the helpers read.
    [GetQueueUrl] gives a string: the code reads it as [QueueUrl!]. *)
Definition Output (c : Command) : Type :=
  match c with
  | CreateQueueCommand _ => unit
  | DeleteMessageBatchCommand _ _ => unit
  | DeleteQueueCommand _ => unit
  | GetQueueAttributesCommand _ _ => option (gmap string string)
  | GetQueueUrlCommand _ => string
  | ReceiveMessageCommand _ => option (list Message)
  end.

Record SendOptions : Type := { opt_abortSignal : option AbortSignal }.

Definition noOptions : SendOptions := {| opt_abortSignal := None |}.

Definition isMutation (c : Command) : bool :=
  match c with
  | CreateQueueCommand _ | DeleteMessageBatchCommand _ _
  | DeleteQueueCommand _ => true
  | GetQueueAttributesCommand _ _ | GetQueueUrlCommand _
  | ReceiveMessageCommand _ => false
  end.

(** ** Inputs and outputs of the helpers *)

Record GetMessagesInput : Type := {
  abortSignal : option AbortSignal;
  batchSize : option Z;
  endpoint : string;
  keep : bool;                       (* absent reads as [false] *)
  queueUrl : string;
}.

Record GetMessagesOutput : Type := { messages : list Message }.

Record JsonMessage (T : Type) : Type := {
  json_message : Message;
  Object : T;
}.
Arguments json_message {T} _.
Arguments Object {T} _.

Record GetJsonMessagesOutput (T : Type) : Type := {
  json_messages : list (JsonMessage T);
}.
Arguments json_messages {T} _.

Record UpsertQueueInput : Type := {
  command : CreateQueueInput;
  upsert_endpoint : string;
  force : bool;                      (* absent reads as [false] *)
}.

Record UpsertQueueOutput : Type := { upsert_queueUrl : string }.

Definition DEFAULT_ATTRIBUTES : gmap string string :=
  list_to_map [
    ("DelaySeconds", "0");
    ("MaximumMessageSize", "262144");
    ("MessageRetentionPeriod", "345600");
    ("ReceiveMessageWaitTimeSeconds", "0");
    ("VisibilityTimeout", "30")
  ].

(** The attribute names [upsertQueue] asks the service for. *)
Definition RECOGNIZED_ATTRIBUTES : list string :=
  [ "DelaySeconds"; "MaximumMessageSize"; "MessageRetentionPeriod";
    "Policy"; "ReceiveMessageWaitTimeSeconds"; "VisibilityTimeout" ].

(** [Object.assign(target, ...sources)]: later sources overwrite;
    an [undefined] source is skipped. *)
Definition Object_assign (target : gmap string string)
    (sources : list (option (gmap string string))) : gmap string string :=
  fold_left (λ acc src, match src with Some s => s ∪ acc | None => acc end)
    sources target.

(** [shallowEqual] of fast-equals on an object of strings that may be
    [undefined] and an object of strings. *)
Definition shallowEqual (a : option (gmap string string))
    (b : gmap string string) : bool :=
  match a with
  | Some a => bool_decide (a = b)
  | None => false
  end.

Definition expectedAttributes (input : CreateQueueInput) : gmap string string :=
  Object_assign ∅
    [Some DEFAULT_ATTRIBUTES; cq_Attributes input; cq_Attributes input].

(** ** The helpers, over any queue service *)
Section Client.
(** Everything outside the process: the queue service behind each
    endpoint, the abort signals. *)
Context {World : Type}.

(** [client.send(command, options)] on the client of an endpoint. *)
Variable send :
  string → ∀ c : Command, SendOptions → World → (Exception + Output c) * World.

(** The state the helpers run in: the world, and the commands sent
    so far, oldest first. *)
Record Env : Type := { world : World; sent : list Command }.

Inductive Outcome (A : Type) : Type :=
| Returned (a : A) (env : Env)
| Raised (e : Exception) (env : Env)
| Unfinished (env : Env).     (* no result yet, and the state reached *)
Arguments Returned {A} _ _.
Arguments Raised {A} _ _.
Arguments Unfinished {A} _.

Definition envOf {A} (o : Outcome A) : Env :=
  match o with
  | Returned _ env | Raised _ env | Unfinished env => env
  end.

Definition M (A : Type) : Type := Env → Outcome A.

Definition ret {A} (a : A) : M A := λ env, Returned a env.
Definition throw {A} (e : Exception) : M A := λ env, Raised e env.
Definition bind {A B} (m : M A) (k : A → M B) : M B :=
  λ env, match m env with
         | Returned a env' => k a env'
         | Raised e env' => Raised e env'
         | Unfinished env' => Unfinished env'
         end.
Definition try_catch {A} (m : M A) (h : Exception → M A) : M A :=
  λ env, match m env with
         | Raised e env' => h e env'
         | o => o
         end.

Notation "'let*' x ':=' m 'in' k" := (bind m (λ x, k))
  (at level 10, x name, m at level 100, k at level 200).
Notation "'await' m 'in' k" := (bind m (λ _, k))
  (at level 10, m at level 100, k at level 200).

(** [#getClient(endpoint).send(command, options)] *)
Definition clientSend (ep : string) (c : Command) (opts : SendOptions)
  : M (Output c) :=
  λ env,
    let env' w := {| world := w; sent := sent env ++ [c] |} in
    match send ep c opts (world env) with
    | (inl e, w) => Raised e (env' w)
    | (inr o, w) => Returned o (env' w)
    end.

(** *** getMessages *)

Definition maxNumberOfMessages (bs : option Z) (accumulated : nat) : Z :=
  match bs with
  | None => 10
  | Some b => Z.min 10 (b - Z.of_nat accumulated)
  end.

(** [batchSize ? 20 : 0] *)
Definition waitTimeSeconds (bs : option Z) : Z :=
  match bs with
  | Some b => if (b =? 0)%Z then 0 else 20
  | None => 0
  end.

Definition toEntry (msg : Message) : DeleteMessageBatchEntry :=
  {| Id := MessageId msg; entry_ReceiptHandle := ReceiptHandle msg |}.

(** The inner [receiveMessages], with [messages] as it is when the
    closure runs. *)
Definition receiveMessages (input : GetMessagesInput)
    (messages : list Message) : M (list Message) :=
  let opts := {| opt_abortSignal := abortSignal input |} in
  let* res :=
    clientSend (endpoint input)
      (ReceiveMessageCommand
         {| MaxNumberOfMessages :=
              maxNumberOfMessages (batchSize input) (length messages);
            rm_QueueUrl := queueUrl input;
            VisibilityTimeout := Some 0%Z;
            WaitTimeSeconds := waitTimeSeconds (batchSize input) |})
      opts in
  match res with
  | Some (m :: ms) =>
      if negb (keep input) then
        await clientSend (endpoint input)
                (DeleteMessageBatchCommand (queueUrl input)
                   (toEntry <$> (m :: ms)))
                opts in
        ret (m :: ms)
      else ret (m :: ms)
  | Some [] => ret []
  | None => ret []
  end.

(** [batchSize !== undefined && messages.length < batchSize] *)
Definition moreWanted (bs : option Z) (messages : list Message) : bool :=
  match bs with
  | Some b => (Z.of_nat (length messages) <? b)%Z
  | None => false
  end.

(** The [do ... while] loop; [fuel] bounds the number of receives. *)
Fixpoint accumulate (fuel : nat) (input : GetMessagesInput)
    (messages : list Message) : M (list Message) :=
  match fuel with
  | O => λ env, Unfinished env
  | S fuel' =>
      let* batch := receiveMessages input messages in
      let messages := messages ++ batch in
      if moreWanted (batchSize input) messages
      then accumulate fuel' input messages
      else ret messages
  end.

Definition batchSizeError : Exception :=
  {| class := PlainError; name := "Error";
     message := "Batch size must be equal or greater than 1." |}.

Definition getMessages (fuel : nat) (input : GetMessagesInput)
  : M GetMessagesOutput :=
  match batchSize input with
  | Some b =>
      if (b <? 1)%Z then throw batchSizeError
      else let* ms := accumulate fuel input [] in ret {| messages := ms |}
  | None => let* ms := accumulate fuel input [] in ret {| messages := ms |}
  end.

(** *** getJsonMessages *)
Section Json.
Context {T : Type}.
(** [JSON.parse]; [None] is a [SyntaxError]. *)
Variable JSON_parse : string → option T.

Definition jsonSyntaxError : Exception :=
  {| class := SyntaxError; name := "SyntaxError"; message := "" |}.

(** [JSON.parse(msg.Body!)]: an absent body is converted to the
    string ["undefined"] before it is parsed. *)
Definition parseBody (msg : Message) : Exception + JsonMessage T :=
  match JSON_parse (default "undefined" (Body msg)) with
  | Some o => inr {| json_message := msg; Object := o |}
  | None => inl jsonSyntaxError
  end.

(** [Array.prototype.map] with a function that may throw. *)
Fixpoint mapParse (msgs : list Message) : Exception + list (JsonMessage T) :=
  match msgs with
  | [] => inr []
  | msg :: rest =>
      match parseBody msg with
      | inl e => inl e
      | inr j =>
          match mapParse rest with
          | inl e => inl e
          | inr js => inr (j :: js)
          end
      end
  end.

Definition getJsonMessages (fuel : nat) (input : GetMessagesInput)
  : M (GetJsonMessagesOutput T) :=
  let* res := getMessages fuel input in
  match mapParse (messages res) with
  | inl e => throw e
  | inr js => ret {| json_messages := js |}
  end.
End Json.

(** *** upsertQueue *)

Definition queueNameExists : Exception :=
  {| class := QueueNameExists; name := "QueueNameExists"; message := "" |}.

Definition getQueueUrl (input : UpsertQueueInput) : M string :=
  clientSend (upsert_endpoint input)
    (GetQueueUrlCommand (QueueName (command input))) noOptions.

(** The [catch] block; [queueUrl] is the variable as the [try] block
    left it. *)
Definition upsertCatch (input : UpsertQueueInput)
    (queueUrl : option string) (error : Exception) : M UpsertQueueOutput :=
  if instanceofQueueDoesNotExist error then
    await clientSend (upsert_endpoint input)
            (CreateQueueCommand (command input)) noOptions in
    let* url := getQueueUrl input in
    ret {| upsert_queueUrl := url |}
  else if instanceofQueueNameExists error && force input then
    await clientSend (upsert_endpoint input)
            (DeleteQueueCommand queueUrl) noOptions in
    await clientSend (upsert_endpoint input)
            (CreateQueueCommand (command input)) noOptions in
    let* url := getQueueUrl input in
    ret {| upsert_queueUrl := url |}
  else throw error.

(** The [try] block after [queueUrl] was assigned. *)
Definition checkAttributes (input : UpsertQueueInput) (url : string)
  : M UpsertQueueOutput :=
  let* actualAttributes :=
    clientSend (upsert_endpoint input)
      (GetQueueAttributesCommand RECOGNIZED_ATTRIBUTES url) noOptions in
  if negb (shallowEqual actualAttributes (expectedAttributes (command input)))
  then throw queueNameExists
  else ret {| upsert_queueUrl := url |}.

Definition upsertQueue (input : UpsertQueueInput) : M UpsertQueueOutput :=
  λ env,
    match getQueueUrl input env with
    | Returned url env' =>
        try_catch (checkAttributes input url)
          (upsertCatch input (Some url)) env'
    | Raised error env' => upsertCatch input None error env'
    | Unfinished env' => Unfinished env'
    end.

End Client.

Arguments Env : clear implicits.
Arguments Outcome : clear implicits.
Arguments M : clear implicits.
Arguments Returned {World A} _ _.
Arguments Raised {World A} _ _.
Arguments Unfinished {World A} _.
Arguments envOf {World A} _.
End SqsHelper.

(** * Loggers *)
Module Logger.

(** What the orchestrator passes to a logger: a message, or one of the
    two objects [{ result }] and [{ error, timeout }]. *)
Inductive LogParam : Type :=
| Text (s : string)
| ResultObject (result : JsValue)
| FailureObject (error : JsValue) (timeout : bool).

(** A method of a logger returns ([None]) or throws. *)
Definition Method (World : Type) : Type :=
  list LogParam → World → option Exception * World.

(** The [Logger] interface. *)
Record Logger (World : Type) : Type := {
  trace : Method World;
  debug : Method World;
  info : Method World;
  warn : Method World;
  error : Method World;
  critical : Method World;
}.
Arguments trace {World} _.
Arguments debug {World} _.
Arguments info {World} _.
Arguments warn {World} _.
Arguments error {World} _.
Arguments critical {World} _.

(** [NoLogger]: every method has an empty body. *)
Definition NoLogger {World : Type} : Logger World :=
  let nothing : Method World := λ _ w, (None, w) in
  {| trace := nothing; debug := nothing; info := nothing;
     warn := nothing; error := nothing; critical := nothing |}.

End Logger.

Module SqsLambdaHelper.

Inductive QueueRef : Type :=
| QueueName (name : string)
| QueueUrl (url : string).

(** Message attributes, whose binary values [toSqsEvent] encodes in
    base64, are not part of [SqsHelper.Message] here, nor of the
    records. *)
Record SQSRecord : Type := {
  attributes : option (gmap string string);
  awsRegion : string;
  eventSource : string;
  eventSourceARN : string;
  body : option string;
  md5OfBody : option string;
  messageId : option string;
  receiptHandle : option string;
}.

Record SQSEvent : Type := { Records : list SQSRecord }.

Record ToSqsEventInput : Type := {
  account : option string;
  ts_messages : list SqsHelper.Message;
  queueName : option string;
  region : option string;
}.

Record ToSqsEventOutput : Type := { ts_event : SQSEvent }.

Section Orchestrator.
Context {World : Type}.
Variable send :
  string → ∀ c : SqsHelper.Command, SqsHelper.SendOptions → World →
  (Exception + SqsHelper.Output c) * World.
(** [abortSignal.aborted] *)
Variable aborted : AbortSignal → World → bool.
(** [process.env.AWS_REGION] *)
Variable AWS_REGION : option string.

Abbreviation M := (SqsHelper.M World).
Notation "'let*' x ':=' m 'in' k" := (SqsHelper.bind m (λ x, k))
  (at level 10, x name, m at level 100, k at level 200).
Notation "'await' m 'in' k" := (SqsHelper.bind m (λ _, k))
  (at level 10, m at level 100, k at level 200).

Record RunSqsLambdaInput : Type := {
  abortSignal : option AbortSignal;
  batchSize : Z;
  endpoint : string;
  (** What the handler does with an event, and to the world. *)
  handler : SQSEvent → World → LambdaHelper.Behaviour * World;
  logger : option (Logger.Logger World);
  queue : QueueRef;
  timeout : Z;
}.

Definition toSqsEvent (input : ToSqsEventInput) : ToSqsEventOutput :=
  let account := default "123456789012" (account input) in
  let queueName := default "queue" (queueName input) in
  let region := default (default "us-east-1" AWS_REGION) (region input) in
  {| ts_event :=
       {| Records :=
            (λ m : SqsHelper.Message,
               {| attributes := SqsHelper.Attributes m;
                  awsRegion := region;
                  eventSource := "aws:sqs";
                  eventSourceARN :=
                    String.append "arn:aws:sqs:"
                      (String.append region
                         (String.append ":"
                            (String.append account
                               (String.append ":" queueName))));
                  body := SqsHelper.Body m;
                  md5OfBody := SqsHelper.MD5OfBody m;
                  messageId := SqsHelper.MessageId m;
                  receiptHandle := SqsHelper.ReceiptHandle m |})
            <$> ts_messages input |} |}.

(** A call of a logger method. *)
Definition logCall (method : Logger.Method World)
    (params : list Logger.LogParam) : M unit :=
  λ env,
    match method params (SqsHelper.world env) with
    | (Some e, w) =>
        SqsHelper.Raised e
          {| SqsHelper.world := w; SqsHelper.sent := SqsHelper.sent env |}
    | (None, w) =>
        SqsHelper.Returned tt
          {| SqsHelper.world := w; SqsHelper.sent := SqsHelper.sent env |}
    end.

(** [await LambdaHelper.invokeLambda({ event, handler, timeout })] *)
Definition invoke (input : RunSqsLambdaInput) (ev : SQSEvent)
  : M LambdaHelper.InvokeLambdaOutput :=
  λ env,
    match LambdaHelper.invokeLambda
            {| LambdaHelper.event := ev;
               LambdaHelper.handler :=
                 λ ev, fst (handler input ev (SqsHelper.world env));
               LambdaHelper.timeout := timeout input |} with
    | Some output =>
        SqsHelper.Returned output
          {| SqsHelper.world := snd (handler input ev (SqsHelper.world env));
             SqsHelper.sent := SqsHelper.sent env |}
    | None =>
        SqsHelper.Unfinished
          {| SqsHelper.world := snd (handler input ev (SqsHelper.world env));
             SqsHelper.sent := SqsHelper.sent env |}
    end.

(** [error instanceof Error && error.name === "AbortError"] *)
Definition isAbortError (error : Exception) : bool :=
  instanceofError error && String.eqb (name error) "AbortError".

(** The input of the [getMessages] call of the loop. *)
Definition pollInput (input : RunSqsLambdaInput) (queueUrl : string)
  : SqsHelper.GetMessagesInput :=
  {| SqsHelper.abortSignal := abortSignal input;
     SqsHelper.batchSize := Some (batchSize input);
     SqsHelper.endpoint := endpoint input;
     SqsHelper.keep := false;
     SqsHelper.queueUrl := queueUrl |}.

(** The [try]/[catch] around the poll: [None] is the [break]. *)
Definition poll (receives : nat) (input : RunSqsLambdaInput)
    (queueUrl : string) : M (option (list SqsHelper.Message)) :=
  SqsHelper.try_catch
    (let* res :=
       SqsHelper.getMessages send receives (pollInput input queueUrl) in
     SqsHelper.ret (Some (SqsHelper.messages res)))
    (λ error,
       if isAbortError error then SqsHelper.ret None
       else SqsHelper.throw error).

(** Reporting the output of an invocation to the logger. *)
Definition report (log : Logger.Logger World)
    (output : LambdaHelper.InvokeLambdaOutput) : M unit :=
  match output with
  | LambdaHelper.SuccessfulInvokeLambdaOutput result =>
      logCall (Logger.info log)
        [Logger.Text "Successfully invoked lambda handler.";
         Logger.ResultObject result]
  | LambdaHelper.FailedInvokeLambdaOutput error timeout =>
      logCall (Logger.error log)
        [Logger.Text "Failed to invoke lambda handler.";
         Logger.FailureObject error timeout]
  end.

Definition pollingText : list Logger.LogParam :=
  [Logger.Text "Polling for SQS messages..."].

Definition invokingText (messages : list SqsHelper.Message)
  : list Logger.LogParam :=
  [Logger.Text
     (String.append "Invoking lambda handler with "
        (String.append (pretty (length messages)) " messages."))].

(** [SqsLambdaHelper.toSqsEvent({ messages }).event] *)
Definition batchEvent (messages : list SqsHelper.Message) : SQSEvent :=
  ts_event
    (toSqsEvent {| account := None; ts_messages := messages;
                   queueName := None; region := None |}).

(** [logger = new NoLogger()] *)
Definition loggerOf (input : RunSqsLambdaInput) : Logger.Logger World :=
  default Logger.NoLogger (logger input).

Definition keepPolling (input : RunSqsLambdaInput) (w : World) : bool :=
  match abortSignal input with
  | None => true
  | Some s => negb (aborted s w)
  end.

(** The [while] loop: [polls] bounds its iterations, [receives] the
    receives of each [getMessages]. *)
Fixpoint pollLoop (polls receives : nat) (input : RunSqsLambdaInput)
    (queueUrl : string) : M unit :=
  match polls with
  | O => λ env, SqsHelper.Unfinished env
  | S polls' =>
      λ env,
        if keepPolling input (SqsHelper.world env) then
          (await logCall (Logger.info (loggerOf input)) pollingText in
           let* polled := poll receives input queueUrl in
           match polled with
           | None => SqsHelper.ret tt
           | Some messages =>
               await logCall (Logger.info (loggerOf input))
                       (invokingText messages) in
               let* output := invoke input (batchEvent messages) in
               await report (loggerOf input) output in
               pollLoop polls' receives input queueUrl
           end) env
        else SqsHelper.Returned tt env
  end.

Definition runSqsLambda (polls receives : nat) (input : RunSqsLambdaInput)
  : M unit :=
  let* queueUrl :=
    match queue input with
    | QueueName name =>
        SqsHelper.clientSend send (endpoint input)
          (SqsHelper.GetQueueUrlCommand name) SqsHelper.noOptions
    | QueueUrl url => SqsHelper.ret url
    end in
  pollLoop polls receives input queueUrl.

End Orchestrator.

Arguments RunSqsLambdaInput : clear implicits.
End SqsLambdaHelper.

(** * A small queue service

    A queue service to run the helpers against: queues are kept by URL,
    a receive with a zero visibility timeout leaves the messages it
    returns in the queue, and a request that carries an abort signal
    fails with [AbortError] once the signal has fired.  The signal can
    be set to fire after a number of requests. *)
Module Service.
Import SqsHelper.

Record Queue : Type := {
  q_attributes : gmap string string;
  q_messages : list Message;
}.

Record World : Type := {
  queues : gmap string Queue;
  abort_fired : bool;
  abort_after : option nat;     (* requests left before the signal fires *)
}.

Definition urlOf (queueName : string) : string :=
  String.append "http://sqs.local/000000000000/" queueName.

Definition queueDoesNotExist : Exception :=
  {| class := QueueDoesNotExist; name := "QueueDoesNotExist"; message := "" |}.

Definition invalidParameterValue : Exception :=
  {| class := PlainError; name := "InvalidParameterValue"; message := "" |}.

(** What a new queue holds: the service's defaults, the attributes of
    the request over them, and an attribute of the service's own. *)
Definition created (input : CreateQueueInput) : Queue :=
  {| q_attributes :=
       <["QueueArn" := String.append "arn:aws:sqs:us-east-1:000000000000:"
                         (QueueName input)]>
         (default ∅ (cq_Attributes input) ∪ DEFAULT_ATTRIBUTES);
     q_messages := [] |}.

Definition restrict (names : list string) (m : gmap string string)
  : gmap string string :=
  filter (λ kv, kv.1 ∈ names) m.

Definition handles (entries : list DeleteMessageBatchEntry)
  : list (option string) :=
  entry_ReceiptHandle <$> entries.

Definition setQueues (qs : gmap string Queue) (w : World) : World :=
  {| queues := qs; abort_fired := abort_fired w;
     abort_after := abort_after w |}.

(** Time passes with each request served. *)
Definition tick (w : World) : World :=
  match abort_after w with
  | Some O =>
      {| queues := queues w; abort_fired := true; abort_after := None |}
  | Some (S n) =>
      {| queues := queues w; abort_fired := abort_fired w;
         abort_after := Some n |}
  | None => w
  end.

Definition serve (c : Command) (w : World) : (Exception + Output c) * World :=
  match c as c return (Exception + Output c) * World with
  | CreateQueueCommand input =>
      match queues w !! urlOf (QueueName input) with
      | Some q =>
          if bool_decide (q_attributes q = q_attributes (created input))
          then (inr tt, w)
          else (inl queueNameExists, w)
      | None =>
          (inr tt,
           setQueues (<[urlOf (QueueName input) := created input]> (queues w)) w)
      end
  | DeleteMessageBatchCommand url entries =>
      match queues w !! url with
      | Some q =>
          (inr tt,
           setQueues
             (<[url := {| q_attributes := q_attributes q;
                          q_messages :=
                            filter (λ m, ReceiptHandle m ∉ handles entries)
                              (q_messages q) |}]> (queues w)) w)
      | None => (inl queueDoesNotExist, w)
      end
  | DeleteQueueCommand (Some url) =>
      match queues w !! url with
      | Some _ => (inr tt, setQueues (delete url (queues w)) w)
      | None => (inl queueDoesNotExist, w)
      end
  | DeleteQueueCommand None => (inl invalidParameterValue, w)
  | GetQueueAttributesCommand names url =>
      match queues w !! url with
      | Some q => (inr (Some (restrict names (q_attributes q))), w)
      | None => (inl queueDoesNotExist, w)
      end
  | GetQueueUrlCommand queueName =>
      match queues w !! urlOf queueName with
      | Some _ => (inr (urlOf queueName), w)
      | None => (inl queueDoesNotExist, w)
      end
  | ReceiveMessageCommand input =>
      match queues w !! rm_QueueUrl input with
      | Some q =>
          if ((MaxNumberOfMessages input <? 1)
              || (10 <? MaxNumberOfMessages input))%Z
          then (inl invalidParameterValue, w)
          else
            match take (Z.to_nat (MaxNumberOfMessages input)) (q_messages q) with
            | [] => (inr None, w)
            | ms => (inr (Some ms), w)
            end
      | None => (inl queueDoesNotExist, w)
      end
  end.

Definition send (endpoint : string) (c : Command) (opts : SendOptions)
    (w : World) : (Exception + Output c) * World :=
  let served := (fst (serve c w), tick (snd (serve c w))) in
  match opt_abortSignal opts with
  | Some _ => if abort_fired w then (inl AbortError, w) else served
  | None => served
  end.

Definition aborted (s : AbortSignal) (w : World) : bool := abort_fired w.

Definition empty : World :=
  {| queues := ∅; abort_fired := false; abort_after := None |}.

Definition fresh : Env World := {| world := empty; sent := [] |}.

Definition message (id body : string) : Message :=
  {| MessageId := Some id; ReceiptHandle := Some (String.append "rh-" id);
     Body := Some body; MD5OfBody := None; Attributes := None |}.

(** A world with one queue, of default attributes, that holds the
    given messages. *)
Definition holding (queueName : string) (msgs : list Message) : Env World :=
  {| world :=
       {| queues :=
            {[ urlOf queueName :=
                 {| q_attributes :=
                      q_attributes
                        (created {| QueueName := queueName;
                                    cq_Attributes := None |});
                    q_messages := msgs |} ]};
          abort_fired := false; abort_after := None |};
     sent := [] |}.

(** The same, with the abort signal set to fire after [n] requests. *)
Definition abortingAfter (n : nat) (env : Env World) : Env World :=
  {| world := {| queues := queues (world env);
                 abort_fired := abort_fired (world env);
                 abort_after := Some n |};
     sent := sent env |}.

End Service.


(** * More of the queue client *)

(** ** clearSqsQueue *)
Module ClearSqsQueue.
Import SqsHelper.

Record CleanQueueInput : Type := {
  clean_endpoint : string;
  purge : bool;                        (* absent reads as [false] *)
  clean_queueUrl : string;
}.

Section Clear.
Context {World : Type}.
Variable send :
  string → ∀ c : Command, SendOptions → World → (Exception + Output c) * World.
(** [client.send(new PurgeQueueCommand({ QueueUrl }))], by endpoint and
    queue URL.  The purge is not among the commands of the log. *)
Variable sendPurge : string → string → World → (Exception + unit) * World.

Notation "'let*' x ':=' m 'in' k" := (bind m (λ x, k))
  (at level 10, x name, m at level 100, k at level 200).
Notation "'await' m 'in' k" := (bind m (λ _, k))
  (at level 10, m at level 100, k at level 200).

Definition purgeQueue (input : CleanQueueInput) : M World unit :=
  λ env,
    match sendPurge (clean_endpoint input) (clean_queueUrl input) (world env) with
    | (inl e, w) => Raised e {| world := w; sent := sent env |}
    | (inr _, w) => Returned tt {| world := w; sent := sent env |}
    end.

(** The receive of the loop: ten messages, no wait, the queue's own
    visibility timeout. *)
Definition clearReceive (input : CleanQueueInput) : Command :=
  ReceiveMessageCommand
    {| MaxNumberOfMessages := 10; rm_QueueUrl := clean_queueUrl input;
       VisibilityTimeout := None; WaitTimeSeconds := 0 |}.

Definition clearDelete (input : CleanQueueInput) (msgs : list Message)
  : Command :=
  DeleteMessageBatchCommand (clean_queueUrl input) (toEntry <$> msgs).

(** The [do ... while (res.Messages?.length)] loop; [fuel] bounds the
    number of receives. *)
Fixpoint clearLoop (fuel : nat) (input : CleanQueueInput) : M World unit :=
  match fuel with
  | O => λ env, Unfinished env
  | S fuel' =>
      let* res :=
        clientSend send (clean_endpoint input) (clearReceive input) noOptions in
      match res with
      | Some (m :: ms) =>
          await clientSend send (clean_endpoint input)
                  (clearDelete input (m :: ms)) noOptions in
          clearLoop fuel' input
      | Some [] => ret tt
      | None => ret tt
      end
  end.

Definition clearSqsQueue (fuel : nat) (input : CleanQueueInput) : M World unit :=
  if purge input then purgeQueue input else clearLoop fuel input.

End Clear.
End ClearSqsQueue.

(** ** The clients, one per endpoint *)
Module GetClient.

(** A client object: the endpoint it was built with, and which object
    it is (the n-th client built). *)
Record SQSClient : Type := {
  client_endpoint : string;
  client_object : nat;
}.

(** The static [#clients] map, and the number of clients built so
    far. *)
Record Clients : Type := {
  clients : gmap string SQSClient;
  built : nat;
}.

Definition noClients : Clients := {| clients := ∅; built := O |}.

Definition getClient (endpoint : string) (st : Clients) : SQSClient * Clients :=
  match clients st !! endpoint with
  | Some client => (client, st)
  | None =>
      let client := {| client_endpoint := endpoint; client_object := built st |} in
      (client,
       {| clients := <[endpoint := client]> (clients st);
          built := S (built st) |})
  end.

(** The state after one [#getClient] per endpoint of a list. *)
Definition getClients (endpoints : list string) (st : Clients) : Clients :=
  fold_left (λ st endpoint, snd (getClient endpoint st)) endpoints st.

End GetClient.

(** * More of the event adapter: message attributes *)
Module MessageAttributes.

(** [Buffer.from(bytes).toString("base64")], bytes as characters. *)
Definition base64Alphabet : string :=
  "ABCDEFGHIJKLMNOPQRSTUVWXYZabcdefghijklmnopqrstuvwxyz0123456789+/".

Definition sextet (n : N) : Ascii.ascii :=
  default (Ascii.ascii_of_nat 61) (String.get (N.to_nat n) base64Alphabet).

Fixpoint base64 (bytes : list Ascii.ascii) : string :=
  match bytes with
  | [] => ""
  | [a] =>
      let n := (Ascii.N_of_ascii a * 16)%N in
      String (sextet (n / 64)) (String (sextet (n mod 64)) "==")
  | [a; b] =>
      let n := ((Ascii.N_of_ascii a * 256 + Ascii.N_of_ascii b) * 4)%N in
      String (sextet (n / 4096))
        (String (sextet (n / 64 mod 64)) (String (sextet (n mod 64)) "="))
  | a :: b :: c :: rest =>
      let n := (Ascii.N_of_ascii a * 65536 + Ascii.N_of_ascii b * 256
                + Ascii.N_of_ascii c)%N in
      String (sextet (n / 262144))
        (String (sextet (n / 4096 mod 64))
           (String (sextet (n / 64 mod 64))
              (String (sextet (n mod 64)) (base64 rest))))
  end.

(** A message attribute as the queue service gives it. *)
Record MessageAttributeValue : Type := {
  BinaryListValues : option (list (list Ascii.ascii));
  BinaryValue : option (list Ascii.ascii);
  DataType : option string;
  StringListValues : option (list string);
  StringValue : option string;
}.

(** A message attribute of an event record. *)
Record SQSMessageAttribute : Type := {
  binaryValue : option string;
  binaryListValues : option (list string);
  dataType : option string;
  stringValue : option string;
  stringListValues : option (list string);
}.

(** The function mapped over the entries.  A byte array is truthy even
    when it is empty. *)
Definition toEventAttribute (a : MessageAttributeValue) : SQSMessageAttribute :=
  {| binaryValue := fmap (M:=option) base64 (BinaryValue a);
     binaryListValues :=
       fmap (M:=option) (fmap (M:=list) base64) (BinaryListValues a);
     dataType := DataType a;
     stringValue := StringValue a;
     stringListValues := StringListValues a |}.

(** The [messageAttributes] of a record:
    [Object.fromEntries(Object.entries(m.MessageAttributes).map(...))],
    or [{}] when the message has none. *)
Definition messageAttributes
    (attrs : option (gmap string MessageAttributeValue))
  : gmap string SQSMessageAttribute :=
  match attrs with
  | Some m =>
      list_to_map ((λ kv, (kv.1, toEventAttribute kv.2)) <$> map_to_list m)
  | None => ∅
  end.

End MessageAttributes.

(** * The logger over a Powertools logger *)
Module LambdaPowertoolsLogger.

(** What can be given to a logger, as far as [typeof] and
    [instanceof Error] tell. *)
Inductive LogValue : Type :=
| LUndefined
| LNull
| LString (s : string)
| LNumber (n : Z)
| LBoolean (b : bool)
| LObject (ref : nat)         (* an object that is not an [Error] *)
| LError (ref : nat).         (* an [Error] instance *)

Inductive LogLevel : Type :=
| Trace | Debug | Info | Warn | Error | Critical.

(** The message given to the Powertools logger. *)
Inductive LogItemMessage : Type :=
| MessageText (s : string)
| MessageObject (v : LogValue).

(** An extra given to the Powertools logger: a value as it came, or the
    object [{ [key]: value }]. *)
Inductive LogItemExtra : Type :=
| AsIs (v : LogValue)
| Keyed (key : string) (v : LogValue).

(** [typeof v === "object"] and [v !== null] *)
Definition isObject (v : LogValue) : bool :=
  match v with LObject _ | LError _ => true | _ => false end.

Definition isString (v : LogValue) : bool :=
  match v with LString _ => true | _ => false end.

Definition isError (v : LogValue) : bool :=
  match v with LError _ => true | _ => false end.

(** [msg?.toString() ?? ""] for what is neither a string nor an
    object. *)
Definition toStringOrEmpty (v : LogValue) : string :=
  match v with
  | LNumber n => pretty n
  | LBoolean true => "true"
  | LBoolean false => "false"
  | _ => ""
  end.

Definition transformMsg (msg : LogValue) : LogItemMessage :=
  match msg with
  | LString s => MessageText s
  | LObject _ | LError _ => MessageObject msg
  | _ => MessageText (toStringOrEmpty msg)
  end.

(** [rest.map((param, i) => ...)] from index [i] on. *)
Fixpoint wrapFrom (i : nat) (rest : list LogValue) : list LogItemExtra :=
  match rest with
  | [] => []
  | param :: rest' =>
      (if isObject param && negb (isError param) then AsIs param
       else Keyed (String.append "param" (pretty i)) param)
      :: wrapFrom (S i) rest'
  end.

Definition transformRest (rest : list LogValue) : list LogItemExtra :=
  match rest with
  | [param] =>
      if isString param || isError param then [AsIs param]
      else wrapFrom 0 rest
  | _ => wrapFrom 0 rest
  end.

(** A call on the Powertools logger. *)
Record LoggerCall : Type := {
  call_level : LogLevel;
  call_message : LogItemMessage;
  call_extras : list LogItemExtra;
}.

(** [#log(level, params)]: the call it makes. *)
Definition log (level : LogLevel) (params : list LogValue) : LoggerCall :=
  {| call_level := level;
     call_message := transformMsg (default LUndefined (head params));
     call_extras := transformRest (tail params) |}.

End LambdaPowertoolsLogger.

(** * Option values of the command line *)
Module Options.


Definition ENDPOINT_OPTION_FLAGS : string := "-e, --endpoint <url>".


(** The argument parser of the earlier command line for the batch size
    and the timeout: [env:] resolution, then [/^\d+$/], [parseInt] and
    [z.number().int().min(1)].  The resolution fails with its own
    message; [errorMsg] is the parser's. *)
Definition isDigit (a : Ascii.ascii) : bool :=
  (48 <=? Ascii.nat_of_ascii a)%nat && (Ascii.nat_of_ascii a <=? 57)%nat.

(** [/^\d+$/] *)
Definition INTEGER_STRING (s : string) : bool :=
  negb (String.eqb s "") && forallb isDigit (String.list_ascii_of_string s).

(** [parseInt] on a string of digits. *)
Definition parseInt (s : string) : Z :=
  fold_left (λ n a, (10 * n + Z.of_nat (Ascii.nat_of_ascii a - 48))%Z)
    (String.list_ascii_of_string s) 0%Z.

Definition legacyResolveOptionValue (env : gmap string string)
    (value : string) : string + string :=
  if negb (String.prefix "env:" value) then inr value
  else
    let varName := String.substring 4 (String.length value - 4) value in
    match env !! varName with
    | Some (String a result) => inr (String a result)
    | _ =>
        inl (String.append "No environment variable found with name '"
               (String.append varName "'."))
    end.

Definition positiveIntegerParser (errorMsg : string)
    (env : gmap string string) (v : string) : string + Z :=
  match legacyResolveOptionValue env v with
  | inl e => inl e
  | inr s =>
      if INTEGER_STRING s && (1 <=? parseInt s)%Z then inr (parseInt s)
      else inl errorMsg
  end.

End Options.

(** * Notions the properties are stated with *)

Module LambdaSignals.
Import LambdaHelper.

(** A completion signal, by the way it reaches the engine: a call made
    while the handler runs, the handler throwing, or something that
    happens after the handler returned (the timer among them). *)
Inductive Signal : Type :=
| BySync (c : Call)
| ByThrow (e : JsValue)
| ByAsync (a : AsyncEvent).

(** The first event after the handler returned that reaches the
    engine: the settling of the handler's promise reaches it only if
    the handler returned one; when nothing else does, the timer. *)
Fixpoint firstAsync (attached : bool) (l : list AsyncEvent) : AsyncEvent :=
  match l with
  | [] => TimerFires
  | PromiseFulfils v :: l' =>
      if attached then PromiseFulfils v else firstAsync attached l'
  | PromiseRejects e :: l' =>
      if attached then PromiseRejects e else firstAsync attached l'
  | a :: _ => a
  end.

(** The first signal of a handler, in the order things happen. *)
Definition firstSignal (b : Behaviour) : Signal :=
  match sync_calls b with
  | c :: _ => BySync c
  | [] =>
      match completion b with
      | Throws e => ByThrow e
      | ReturnsPromise => ByAsync (firstAsync true (later b))
      | Returns _ => ByAsync (firstAsync false (later b))
      end
  end.

(** The handler that raises one signal and nothing else. *)
Definition only (s : Signal) : Behaviour :=
  match s with
  | BySync c =>
      {| sync_calls := [c]; completion := Returns JUndefined; later := [] |}
  | ByThrow e =>
      {| sync_calls := []; completion := Throws e; later := [] |}
  | ByAsync (PromiseFulfils v) =>
      {| sync_calls := []; completion := ReturnsPromise;
         later := [PromiseFulfils v] |}
  | ByAsync (PromiseRejects e) =>
      {| sync_calls := []; completion := ReturnsPromise;
         later := [PromiseRejects e] |}
  | ByAsync a =>
      {| sync_calls := []; completion := Returns JUndefined; later := [a] |}
  end.

(** An invocation of a handler of a given behaviour. *)
Definition behaving (b : Behaviour) : InvokeLambdaInput unit :=
  {| event := tt; handler := λ _, b; timeout := 3 |}.

(** The handler that does nothing and returns [undefined]. *)
Definition silent : Behaviour :=
  {| sync_calls := []; completion := Returns JUndefined; later := [] |}.

(** A call that reports the failure [e]. *)
Definition callFails (e : JsValue) (c : Call) : Prop :=
  match c with
  | CallbackCall e' _ | ContextDone e' _ | ContextFail e' => e' = e
  | ContextSucceed _ => False
  end.

(** A signal that reports the failure [e]: a rejection, an error given
    to the callback, [fail] or [done], or a throw. *)
Inductive Fails (e : JsValue) : Signal → Prop :=
| fails_throw : Fails e (ByThrow e)
| fails_reject : Fails e (ByAsync (PromiseRejects e))
| fails_call c : callFails e c → Fails e (BySync c)
| fails_late c : callFails e c → Fails e (ByAsync (LateCall c)).

(** The settling of a returned promise, and the call that reports the
    same outcome through the callback or the context. *)
Inductive SameOutcome : AsyncEvent → Call → Prop :=
| same_callback_result v e :
    truthy e = false → SameOutcome (PromiseFulfils v) (CallbackCall e v)
| same_done_result v e :
    truthy e = false → SameOutcome (PromiseFulfils v) (ContextDone e v)
| same_succeed v : SameOutcome (PromiseFulfils v) (ContextSucceed v)
| same_callback_error e r :
    truthy e = true → SameOutcome (PromiseRejects e) (CallbackCall e r)
| same_done_error e r :
    truthy e = true → SameOutcome (PromiseRejects e) (ContextDone e r)
| same_fail e :
    truthy e = true → SameOutcome (PromiseRejects e) (ContextFail e).

(** Sample handlers: an async function that returns ["result"], a
    function that returns ["result"] without a promise, an async
    function that throws the string the timer rejects with. *)
Definition asyncResult : Behaviour :=
  {| sync_calls := []; completion := ReturnsPromise;
     later := [PromiseFulfils (JStr "result")] |}.

Definition plainResult : Behaviour :=
  {| sync_calls := []; completion := Returns (JStr "result"); later := [] |}.

Definition asyncTimeoutReason : Behaviour :=
  {| sync_calls := []; completion := ReturnsPromise;
     later := [PromiseRejects (JStr TIMEOUT_REASON)] |}.

(** More sample handlers: async functions that throw an error object
    and [undefined]. *)
Definition asyncFailure : Behaviour :=
  {| sync_calls := []; completion := ReturnsPromise;
     later := [PromiseRejects (JObject 1)] |}.

Definition asyncUndefinedFailure : Behaviour :=
  {| sync_calls := []; completion := ReturnsPromise;
     later := [PromiseRejects JUndefined] |}.

(** A value the promise would follow rather than be fulfilled with. *)
Definition isThenable (v : JsValue) : bool :=
  match v with
  | JFulfilling _ | JRejecting _ | JPending => true
  | _ => false
  end.

(** The result a call reports when its error is falsy. *)
Definition resultOf (c : Call) : JsValue :=
  match c with
  | CallbackCall _ r | ContextDone _ r | ContextSucceed r => r
  | ContextFail _ => JUndefined
  end.

(** The handler's first signal is the call [c], made while it runs or
    later. *)
Definition signalsBy (c : Call) (b : Behaviour) : Prop :=
  firstSignal b = BySync c ∨ firstSignal b = ByAsync (LateCall c).

(** The same handler, had it returned [undefined]. *)
Definition returningUndefined (b : Behaviour) : Behaviour :=
  {| sync_calls := sync_calls b; completion := Returns JUndefined;
     later := later b |}.

(** Once [promiseSettled] is set and the timer is gone. *)
Definition settled (st : Invocation) : Prop :=
  promiseSettled st = true ∧ timeoutId st = None.

(** Before any signal: nothing settled, the timer armed. *)
Definition waiting (st : Invocation) : Prop :=
  promiseSettled st = false ∧ timeoutId st = Some TimerHandle
  ∧ promise st = Pending.

(** The flag says what the promise is: unset exactly while the promise
    is pending, so that [resolve] and [reject] reach the promise's own
    functions at most once. *)
Definition guarded (st : Invocation) : Prop :=
  promiseSettled st = false ↔ promise st = Pending.

(** The promise after a first signal that is a call. *)
Definition afterCall (c : Call) : PromiseState :=
  match c with
  | CallbackCall e r | ContextDone e r =>
      if truthy e then RejectedWith e else ResolvedWith r
  | ContextFail e =>
      if truthy e then RejectedWith e else ResolvedWith JUndefined
  | ContextSucceed r => ResolvedWith r
  end.


(** The promise after a first signal. *)
Definition afterSignal (s : Signal) : PromiseState :=
  match s with
  | BySync c | ByAsync (LateCall c) => afterCall c
  | ByThrow e | ByAsync (PromiseRejects e) => RejectedWith e
  | ByAsync (PromiseFulfils v) => ResolvedWith v
  | ByAsync TimerFires => RejectedWith (JStr TIMEOUT_REASON)
  end.

End LambdaSignals.

Module LambdaTiming.
Import LambdaHelper LambdaSignals.












End LambdaTiming.

Module SqsNotions.
Import SqsHelper.

(** The commands a run added to the log. *)
Definition newlySent {World} (before after : Env World) : list Command :=
  drop (length (sent before)) (sent after).

(** The [MaxNumberOfMessages] of the receives among some commands. *)
Definition requested (cs : list Command) : list Z :=
  omap (λ c, match c with
             | ReceiveMessageCommand i => Some (MaxNumberOfMessages i)
             | _ => None
             end) cs.

(** A delete request for the message was sent to the queue. *)
Definition deletedBy (cs : list Command) (url : string) (m : Message) : Prop :=
  ∃ entries,
    DeleteMessageBatchCommand url entries ∈ cs ∧ toEntry m ∈ entries.

Section Notions.
Context {World : Type}.
Variable send :
  string → ∀ c : Command, SendOptions → World → (Exception + Output c) * World.

(** The service never returns more messages than a receive asks
    for. *)
Definition honoursMaximum : Prop :=
  ∀ ep i opts w ms w',
    send ep (ReceiveMessageCommand i) opts w = (inr (Some ms), w') →
    (Z.of_nat (length ms) ≤ MaxNumberOfMessages i)%Z.

(** The receives of the accumulation loop, in order: for each, the
    number of messages accumulated when it was issued and the number
    of messages pushed when it came back (none when it failed). *)
Fixpoint receives (fuel : nat) (input : GetMessagesInput)
    (messages : list Message) (env : Env World) : list (nat * nat) :=
  match fuel with
  | O => []
  | S fuel' =>
      match receiveMessages send input messages env with
      | Returned batch env' =>
          (length messages, length batch)
          :: (if moreWanted (batchSize input) (messages ++ batch)
              then receives fuel' input (messages ++ batch) env'
              else [])
      | _ => [(length messages, O)]
      end
  end.
End Notions.

(** A message whose body [JSON.parse] rejects: the body is absent, or
    it is a string that does not parse. *)
Definition unparsable {T} (JSON_parse : string → option T) (m : Message) : Prop :=
  Body m = None ∨ ∃ s, Body m = Some s ∧ JSON_parse s = None.

(** A [JSON.parse] that reads decimal numbers and nothing else. *)
Definition parseNumber (s : string) : option JsValue :=
  if String.eqb s "" then None
  else if forallb (λ a, (48 <=? Ascii.nat_of_ascii a) && (Ascii.nat_of_ascii a <=? 57))%nat
            (String.list_ascii_of_string s)
  then Some (JNum (fold_left
                     (λ n a, (10 * n + Z.of_nat (Ascii.nat_of_ascii a - 48))%Z)
                     (String.list_ascii_of_string s) 0%Z))
  else None.

(** Sample requests. *)
Definition fifoRequest : UpsertQueueInput :=
  {| command := {| QueueName := "orders.fifo";
                   cq_Attributes := Some {[ "FifoQueue" := "true" ]} |};
     upsert_endpoint := "http://127.0.0.1:4566"; force := false |}.

Definition delayRequest : UpsertQueueInput :=
  {| command := {| QueueName := "orders";
                   cq_Attributes := Some {[ "DelaySeconds" := "1" ]} |};
     upsert_endpoint := "http://127.0.0.1:4566"; force := false |}.

Definition batchOf (b : Z) (queueName : string) : GetMessagesInput :=
  {| abortSignal := None; batchSize := Some b;
     endpoint := "http://127.0.0.1:4566"; keep := false;
     queueUrl := Service.urlOf queueName |}.

End SqsNotions.

Module PollNotions.
Import SqsLambdaHelper.

Definition sinkClosed : Exception :=
  {| class := PlainError; name := "Error"; message := "log sink closed" |}.

(** A logger whose [error] method throws. *)
Definition throwingLogger : Logger.Logger Service.World :=
  {| Logger.trace := λ _ w, (None, w);
     Logger.debug := λ _ w, (None, w);
     Logger.info := λ _ w, (None, w);
     Logger.warn := λ _ w, (None, w);
     Logger.error := λ _ w, (Some sinkClosed, w);
     Logger.critical := λ _ w, (None, w) |}.

(** An async handler that throws, and one that returns. *)
Definition rejecting (ev : SQSEvent) (w : Service.World)
  : LambdaHelper.Behaviour * Service.World :=
  ({| LambdaHelper.sync_calls := [];
      LambdaHelper.completion := LambdaHelper.ReturnsPromise;
      LambdaHelper.later := [LambdaHelper.PromiseRejects (JObject 1)] |}, w).

Definition resolving (ev : SQSEvent) (w : Service.World)
  : LambdaHelper.Behaviour * Service.World :=
  ({| LambdaHelper.sync_calls := [];
      LambdaHelper.completion := LambdaHelper.ReturnsPromise;
      LambdaHelper.later := [LambdaHelper.PromiseFulfils JUndefined] |}, w).

Definition polling (size : Z)
    (h : SQSEvent → Service.World → LambdaHelper.Behaviour * Service.World)
    (log : option (Logger.Logger Service.World))
    (signal : option AbortSignal) (q : QueueRef)
  : RunSqsLambdaInput Service.World :=
  {| abortSignal := signal; batchSize := size;
     endpoint := "http://127.0.0.1:4566"; handler := h; logger := log;
     queue := q; timeout := 3 |}.

End PollNotions.

Module MoreNotions.
Import LambdaHelper LambdaSignals.

(** The state of an invocation when the handler's synchronous run is
    over, before anything else happens. *)
Definition afterSyncRun (b : Behaviour) : Invocation :=
  complete (completion b) (fold_left (λ st c, call c st) (sync_calls b) started).

(** A handler that reports a failure with no error through [fail]. *)
Definition failingWithNothing : Behaviour :=
  {| sync_calls := [ContextFail JUndefined]; completion := Returns JUndefined;
     later := [] |}.

(** A handler that throws an error object. *)
Definition throwing : Behaviour :=
  {| sync_calls := []; completion := Throws (JObject 1); later := [] |}.

(** A handler that gives the callback a promise that never settles. *)
Definition resolvingForever : Behaviour :=
  {| sync_calls := [CallbackCall JNull JPending];
     completion := Returns JUndefined; later := [TimerFires] |}.

End MoreNotions.

Module MoreSqsNotions.
Import SqsHelper.


(** The receive of a [getMessages] without a batch size. *)
Definition plainReceive (input : GetMessagesInput) : Command :=
  ReceiveMessageCommand
    {| MaxNumberOfMessages := 10; rm_QueueUrl := queueUrl input;
       VisibilityTimeout := Some 0%Z; WaitTimeSeconds := 0 |}.

Definition optionsOf (input : GetMessagesInput) : SendOptions :=
  {| opt_abortSignal := abortSignal input |}.

(** Sample inputs. *)
Definition plainInput (keeping : bool) (queueName : string) : GetMessagesInput :=
  {| abortSignal := None; batchSize := None;
     endpoint := "http://127.0.0.1:4566"; keep := keeping;
     queueUrl := Service.urlOf queueName |}.

Definition forcedDelayRequest : UpsertQueueInput :=
  {| command := {| QueueName := "orders";
                   cq_Attributes := Some {[ "DelaySeconds" := "1" ]} |};
     upsert_endpoint := "http://127.0.0.1:4566"; force := true |}.

Definition plainRequest : UpsertQueueInput :=
  {| command := {| QueueName := "orders"; cq_Attributes := None |};
     upsert_endpoint := "http://127.0.0.1:4566"; force := false |}.

(** A service that is down: every request fails. *)
Definition serviceUnavailable : Exception :=
  {| class := PlainError; name := "ServiceUnavailable"; message := "" |}.

Definition down (endpoint : string) (c : Command) (opts : SendOptions)
    (w : unit) : (Exception + Output c) * unit :=
  (inl serviceUnavailable, w).

Definition nowhere : Env unit := {| world := tt; sent := [] |}.

(** A service with one queue, of default attributes, that is there or
    not. *)
Definition oneQueue (endpoint : string) (c : Command) (opts : SendOptions)
    (there : bool) : (Exception + Output c) * bool :=
  match c as c return (Exception + Output c) * bool with
  | CreateQueueCommand _ => (inr tt, true)
  | DeleteMessageBatchCommand _ _ => (inr tt, there)
  | DeleteQueueCommand _ => (inr tt, false)
  | GetQueueAttributesCommand _ _ => (inr (Some DEFAULT_ATTRIBUTES), there)
  | GetQueueUrlCommand _ =>
      if there then (inr "http://sqs.local/orders", there)
      else (inl Service.queueDoesNotExist, there)
  | ReceiveMessageCommand _ => (inr None, there)
  end.

Definition queueIs (there : bool) : Env bool := {| world := there; sent := [] |}.

(** The state after the queue of [plainRequest] was created. *)
Definition withOrders : Env Service.World :=
  envOf (upsertQueue Service.send plainRequest Service.fresh).

End MoreSqsNotions.

Module MorePollNotions.
Import SqsLambdaHelper PollNotions.

(** The ARN [runSqsLambda] gives to every record: the region, and the
    default account and queue name. *)
Definition defaultArn (AWS_REGION : option string) : string :=
  String.append "arn:aws:sqs:"
    (String.append (default "us-east-1" AWS_REGION) ":123456789012:queue").

(** A signal that fired before the run. *)
Definition alreadyAborted : SqsHelper.Env Service.World :=
  {| SqsHelper.world :=
       {| Service.queues := ∅; Service.abort_fired := true;
          Service.abort_after := None |};
     SqsHelper.sent := [] |}.

End MorePollNotions.

Module ClearNotions.
Import SqsHelper ClearSqsQueue.


(** The purge of the small queue service. *)
Definition servicePurge (endpoint url : string) (w : Service.World)
  : (Exception + unit) * Service.World :=
  match Service.queues w !! url with
  | Some q =>
      (inr tt,
       Service.setQueues
         (<[url := {| Service.q_attributes := Service.q_attributes q;
                      Service.q_messages := [] |}]> (Service.queues w)) w)
  | None => (inl Service.queueDoesNotExist, w)
  end.


Definition clearing (queueName : string) : CleanQueueInput :=
  {| clean_endpoint := "http://127.0.0.1:4566"; purge := false;
     clean_queueUrl := Service.urlOf queueName |}.

End ClearNotions.

Module ClientNotions.
Import GetClient.

(** What every state of the cache satisfies. *)
Record cacheInvariant (st : Clients) : Prop := {
  cache_count : built st = size (clients st);
  cache_endpoint :
    ∀ e c, clients st !! e = Some c → client_endpoint c = e;
  cache_object :
    ∀ e c, clients st !! e = Some c → (client_object c < built st)%nat;
  cache_distinct :
    ∀ e1 e2 c1 c2,
      clients st !! e1 = Some c1 → clients st !! e2 = Some c2 →
      client_object c1 = client_object c2 → e1 = e2;
}.

End ClientNotions.

Module LoggerNotions.
Import LambdaPowertoolsLogger.

(** The extra made of the parameter at position [i] among [n] extras. *)
Definition extraAt (n i : nat) (param : LogValue) : LogItemExtra :=
  if (isObject param && negb (isError param))
     || ((n =? 1)%nat && (isString param || isError param))
  then AsIs param
  else Keyed (String.append "param" (pretty i)) param.

End LoggerNotions.

Module OptionNotions.

(** [Number.MAX_SAFE_INTEGER]: up to here integers are exact numbers. *)
Definition MAX_SAFE_INTEGER : Z := 9007199254740991.

(** One more digit read by [parseInt]. *)
Definition digitStep (n : Z) (a : Ascii.ascii) : Z :=
  (10 * n + Z.of_nat (Ascii.nat_of_ascii a - 48))%Z.

End OptionNotions.


(** * Properties of the invocation engine *)

Module LambdaFacts.
Import LambdaHelper LambdaSignals LambdaTiming.

Example async_handler_result :
  invokeLambda
    (behaving {| sync_calls := []; completion := ReturnsPromise;
                 later := [PromiseFulfils (JStr "result")] |})
  = Some (SuccessfulInvokeLambdaOutput (JStr "result")).
Proof. reflexivity. Qed.

Example callback_handler_error :
  invokeLambda
    (behaving {| sync_calls := [CallbackCall (JObject 1) JUndefined];
                 completion := Returns JUndefined; later := [] |})
  = Some (FailedInvokeLambdaOutput (JObject 1) false).
Proof. reflexivity. Qed.

Example empty_handler_times_out :
  invokeLambda (behaving silent)
  = Some (FailedInvokeLambdaOutput JUndefined true).
Proof. reflexivity. Qed.

Example throwing_handler :
  invokeLambda
    (behaving {| sync_calls := []; completion := Throws (JObject 1);
                 later := [] |})
  = Some (FailedInvokeLambdaOutput (JObject 1) false).
Proof. reflexivity. Qed.

(** ** Signals after the first *)

Lemma resolve_settled v st :
  settled st → promise (resolve v st) = promise st ∧ settled (resolve v st).
Proof.
  intros [Hs Ht]. unfold resolve, clearTimer. rewrite Ht, Hs. by split.
Qed.

Lemma reject_settled e st :
  settled st → promise (reject e st) = promise st ∧ settled (reject e st).
Proof.
  intros [Hs Ht]. unfold reject, clearTimer. rewrite Ht, Hs. by split.
Qed.

Lemma call_settled c st :
  settled st → promise (call c st) = promise st ∧ settled (call c st).
Proof.
  intros H. destruct c; unfold call, callback; simpl;
    try destruct (truthy _);
    auto using resolve_settled, reject_settled.
Qed.

Lemma onTimeout_settled st :
  settled st → promise (onTimeout st) = promise st ∧ settled (onTimeout st).
Proof. intros [Hs Ht]. unfold onTimeout. rewrite Ht. by split. Qed.

Lemma detach_settled st : settled st → settled (detach st).
Proof. by intros [? ?]. Qed.

Lemma deliver_settled a st :
  settled st → promise (deliver a st) = promise st ∧ settled (deliver a st).
Proof.
  intros H. destruct a; simpl.
  - by apply onTimeout_settled.
  - destruct (thenAttached st); [|done].
    by apply (resolve_settled v (detach st)), detach_settled.
  - destruct (thenAttached st); [|done].
    by apply (reject_settled e (detach st)), detach_settled.
  - by apply call_settled.
Qed.

Lemma complete_settled c st :
  settled st → promise (complete c st) = promise st ∧ settled (complete c st).
Proof.
  intros H. destruct c; simpl; [done| |by apply reject_settled].
  by destruct H.
Qed.

Lemma calls_settled cs st :
  settled st →
  promise (fold_left (λ st c, call c st) cs st) = promise st
  ∧ settled (fold_left (λ st c, call c st) cs st).
Proof.
  revert st. induction cs as [|c cs IH]; intros st H; simpl; [done|].
  destruct (call_settled c st H) as [Hp Hs].
  destruct (IH _ Hs) as [Hp' Hs']. split; [congruence|done].
Qed.

Lemma events_settled l st :
  settled st →
  promise (fold_left (λ st a, deliver a st) l st) = promise st
  ∧ settled (fold_left (λ st a, deliver a st) l st).
Proof.
  revert st. induction l as [|a l IH]; intros st H; simpl; [done|].
  destruct (deliver_settled a st H) as [Hp Hs].
  destruct (IH _ Hs) as [Hp' Hs']. split; [congruence|done].
Qed.

(** What is left of an invocation once a signal has settled it. *)
Lemma rest_settled c l st :
  settled st →
  promise (onTimeout (fold_left (λ st a, deliver a st) l (complete c st)))
  = promise st.
Proof.
  intros H.
  destruct (complete_settled c st H) as [Hp Hs].
  destruct (events_settled l _ Hs) as [Hp' Hs'].
  destruct (onTimeout_settled _ Hs') as [Hp'' _]. congruence.
Qed.

(** ** The flag and the promise *)

Lemma resolve_guarded v st : guarded st → guarded (resolve v st).
Proof.
  destruct st as [[|] [t|] p a]; unfold guarded, resolve, clearTimer; simpl;
    try done; intros [H _]; by rewrite (H eq_refl).
Qed.

Lemma reject_guarded e st : guarded st → guarded (reject e st).
Proof.
  destruct st as [[|] [t|] p a]; unfold guarded, reject, clearTimer; simpl;
    try done; intros [H _]; by rewrite (H eq_refl).
Qed.

Lemma call_guarded c st : guarded st → guarded (call c st).
Proof.
  intros H. destruct c; unfold call, callback; simpl;
    try destruct (truthy _); auto using resolve_guarded, reject_guarded.
Qed.

Lemma deliver_guarded a st : guarded st → guarded (deliver a st).
Proof.
  intros H. destruct a as [|v|e|c]; simpl.
  - unfold onTimeout. destruct (timeoutId st); [|done].
    by apply reject_guarded.
  - destruct (thenAttached st); [|done]. by apply resolve_guarded.
  - destruct (thenAttached st); [|done]. by apply reject_guarded.
  - by apply call_guarded.
Qed.

(** In every invocation the flag is set when the promise is resolved or
    rejected, and only then. *)
Lemma run_guarded b : guarded (run b).
Proof.
  assert (∀ cs st, guarded st → guarded (fold_left (λ st c, call c st) cs st))
    as Hcalls.
  { induction cs as [|c cs IH]; intros st H; simpl; [done|].
    by apply IH, call_guarded. }
  assert (∀ l st, guarded st → guarded (fold_left (λ st a, deliver a st) l st))
    as Hevents.
  { induction l as [|a l IH]; intros st H; simpl; [done|].
    by apply IH, deliver_guarded. }
  unfold run. apply (deliver_guarded TimerFires), Hevents.
  assert (guarded (fold_left (λ st c, call c st) (sync_calls b) started)) as H
    by (by apply Hcalls).
  destruct (completion b); simpl; [done|done|by apply reject_guarded].
Qed.

(** ** The first signal *)

Lemma resolve_waiting v st :
  waiting st →
  promise (resolve v st) = ResolvedWith v ∧ settled (resolve v st).
Proof.
  intros (Hs & Ht & Hp). unfold resolve, clearTimer.
  rewrite Ht. simpl. rewrite Hs. simpl. rewrite Hp. by split.
Qed.

Lemma reject_waiting e st :
  waiting st →
  promise (reject e st) = RejectedWith e ∧ settled (reject e st).
Proof.
  intros (Hs & Ht & Hp). unfold reject, clearTimer.
  rewrite Ht. simpl. rewrite Hs. simpl. rewrite Hp. by split.
Qed.

Lemma call_waiting c st :
  waiting st → promise (call c st) = afterCall c ∧ settled (call c st).
Proof.
  intros H. destruct c; unfold call, callback, afterCall; simpl;
    try destruct (truthy _);
    auto using resolve_waiting, reject_waiting.
Qed.

Lemma onTimeout_waiting st :
  waiting st →
  promise (onTimeout st) = RejectedWith (JStr TIMEOUT_REASON)
  ∧ settled (onTimeout st).
Proof.
  intros (Hs & Ht & Hp). unfold onTimeout, reject, clearTimer.
  rewrite Ht. simpl. rewrite Hs. simpl. rewrite Hp. by split.
Qed.

Lemma started_waiting : waiting started.
Proof. by repeat split. Qed.

Lemma attached_waiting : waiting (complete ReturnsPromise started).
Proof. by repeat split. Qed.

Lemma settled_to_the_end l st :
  settled st →
  promise (onTimeout (fold_left (λ st a, deliver a st) l st)) = promise st.
Proof.
  intros H. destruct (events_settled l _ H) as [Hp Hs].
  destruct (onTimeout_settled _ Hs) as [Hp' _]. congruence.
Qed.

Lemma first_async attached l st :
  waiting st → thenAttached st = attached →
  promise (onTimeout (fold_left (λ st a, deliver a st) l st))
  = afterSignal (ByAsync (firstAsync attached l)).
Proof.
  revert st. induction l as [|a l IH]; intros st Hw Ha; simpl.
  - by apply onTimeout_waiting.
  - destruct a as [|v|e|c]; simpl.
    + destruct (onTimeout_waiting st Hw) as [Hp Hs].
      by rewrite settled_to_the_end.
    + rewrite Ha. destruct attached; [|by apply IH].
      assert (waiting (detach st)) as Hd by (by destruct Hw as (?&?&?)).
      destruct (resolve_waiting v _ Hd) as [Hp Hs].
      by rewrite settled_to_the_end.
    + rewrite Ha. destruct attached; [|by apply IH].
      assert (waiting (detach st)) as Hd by (by destruct Hw as (?&?&?)).
      destruct (reject_waiting e _ Hd) as [Hp Hs].
      by rewrite settled_to_the_end.
    + destruct (call_waiting c st Hw) as [Hp Hs].
      by rewrite settled_to_the_end.
Qed.

(** The promise of an invocation is the one its first signal leaves. *)
Lemma run_first_signal b : promise (run b) = afterSignal (firstSignal b).
Proof.
  destruct b as [cs comp l]. unfold run, firstSignal. simpl.
  destruct cs as [|c cs]; simpl.
  - destruct comp as [v| |e]; simpl.
    + by apply first_async; [apply started_waiting|].
    + by apply (first_async true l _ attached_waiting).
    + destruct (reject_waiting e _ started_waiting) as [Hp Hs].
      by rewrite settled_to_the_end.
  - destruct (call_waiting c _ started_waiting) as [Hp Hs].
    destruct (calls_settled cs _ Hs) as [Hp' Hs'].
    rewrite rest_settled by done. congruence.
Qed.

Lemma run_only s : promise (run (only s)) = afterSignal s.
Proof.
  rewrite run_first_signal. f_equal.
  destruct s as [c|e|[|v|e|c]]; reflexivity.
Qed.

(** C1. Settlement is single-write: whatever the handler does, the
    invocation ends as it does for the handler that raises only the
    first of its signals (a call on the callback or on the context, a
    throw, the settling of the returned promise, or the timer); the
    signals after the first change nothing. *)
Theorem invokeLambda_single_write {TEvent} (input : InvokeLambdaInput TEvent) :
  invokeLambda input
  = invokeLambda (behaving (only (firstSignal (handler input (event input))))).
Proof.
  unfold invokeLambda. simpl. by rewrite run_first_signal, run_only.
Qed.

(** ** The timer and the clock *)








Lemma afterSignal_fails s :
  Fails (JStr TIMEOUT_REASON) s →
  afterSignal s = RejectedWith (JStr TIMEOUT_REASON).
Proof.
  intros [| |c Hc|c Hc]; simpl; try done;
    destruct c; simpl in Hc; try done; by subst.
Qed.

(** C9. A handler whose first signal reports a failure with the string
    ["lambda-helper-timeout"], by a rejection, an error given to the
    callback, [fail] or [done], or by throwing, ends as a timeout:
    a failure with [timeout] set and no error, the same output as for a
    handler that is silent until the timer fires. *)
Theorem invokeLambda_timeout_reason {TEvent} (input : InvokeLambdaInput TEvent) :
  Fails (JStr TIMEOUT_REASON) (firstSignal (handler input (event input))) →
  invokeLambda input = Some (FailedInvokeLambdaOutput JUndefined true)
  ∧ invokeLambda input = invokeLambda (behaving silent).
Proof.
  intros H. unfold invokeLambda. rewrite run_first_signal.
  by rewrite (afterSignal_fails _ H).
Qed.

Lemma invokeLambda_timeout_reason_witness :
  Fails (JStr TIMEOUT_REASON)
    (firstSignal (handler (behaving asyncTimeoutReason)
                    (event (behaving asyncTimeoutReason))))
  ∧ invokeLambda (behaving asyncTimeoutReason)
    = Some (FailedInvokeLambdaOutput JUndefined true)
  ∧ invokeLambda (behaving asyncTimeoutReason) = invokeLambda (behaving silent).
Proof.
  split; [apply fails_reject|].
  apply invokeLambda_timeout_reason. apply fails_reject.
Defined.

(** ** The conventions *)

Lemma afterSignal_same s c :
  SameOutcome s c → afterSignal (ByAsync s) = afterCall c.
Proof. intros [v e H|v e H|v|e r H|e r H|e H]; simpl; by rewrite ?H. Qed.

Lemma follow_plain v : isThenable v = false → follow v = Some (inl v).
Proof. by destruct v. Qed.

Lemma output_resolved v :
  isThenable v = false →
  output (ResolvedWith v) = Some (SuccessfulInvokeLambdaOutput v).
Proof. intros H. unfold output. simpl. by rewrite follow_plain. Qed.

Lemma output_rejected e :
  strictEqStr e TIMEOUT_REASON = false →
  output (RejectedWith e) = Some (FailedInvokeLambdaOutput e false).
Proof. intros H. unfold output. simpl. by rewrite H. Qed.

Lemma invokeLambda_first {TEvent} (input : InvokeLambdaInput TEvent) :
  invokeLambda input
  = output (afterSignal (firstSignal (handler input (event input)))).
Proof. unfold invokeLambda. by rewrite run_first_signal. Qed.

Lemma invokeLambda_call {TEvent} (input : InvokeLambdaInput TEvent) c :
  signalsBy c (handler input (event input)) →
  invokeLambda input = output (afterCall c).
Proof. intros [H|H]; by rewrite invokeLambda_first, H. Qed.

(** C2, as stated, fails, twice.  A handler that returns ["result"]
    without a promise ends as a timeout, while the handler that gives
    ["result"] to the callback ends as a success.  And an async handler
    that throws [undefined] ends as a failure with that error, while
    the handlers that give [undefined] to [fail] or to the callback as
    the error end as a success. *)
Lemma returned_value_is_no_signal :
  invokeLambda (behaving plainResult)
  = Some (FailedInvokeLambdaOutput JUndefined true)
  ∧ invokeLambda
      (behaving (only (BySync (CallbackCall JNull (JStr "result")))))
    = Some (SuccessfulInvokeLambdaOutput (JStr "result"))
  ∧ invokeLambda (behaving asyncUndefinedFailure)
    = Some (FailedInvokeLambdaOutput JUndefined false)
  ∧ invokeLambda (behaving (only (BySync (ContextFail JUndefined))))
    = Some (SuccessfulInvokeLambdaOutput JUndefined)
  ∧ invokeLambda
      (behaving (only (BySync (CallbackCall JUndefined JUndefined))))
    = Some (SuccessfulInvokeLambdaOutput JUndefined).
Proof. by split_and!. Qed.

(** C2, amended.  A handler whose returned promise fulfils first, with
    [v], ends as the success with result [v], and so does every handler
    whose first signal gives [v] to [succeed], or to the callback or
    [done] with a falsy error.  A handler whose returned promise rejects
    first, with [e], ends as the failure with error [e] and [timeout]
    unset ([e] not being the string of the timer), and so does every
    handler whose first signal gives [e] to the callback, [done] or
    [fail], when [e] is truthy; in all these cases, thenables and the
    timer's string included, the two invocations end alike.  A falsy
    error given to the callback, [done] or [fail] reports no failure:
    the invocation ends as the success with the result of the call,
    [undefined] for [fail].  A value returned without a promise is no
    signal: the handler ends as if it had returned [undefined]. *)
Theorem invokeLambda_conventions {TEvent} (input : InvokeLambdaInput TEvent) :
  (∀ v, firstSignal (handler input (event input)) = ByAsync (PromiseFulfils v) →
        isThenable v = false →
        invokeLambda input = Some (SuccessfulInvokeLambdaOutput v)
        ∧ ∀ c (other : InvokeLambdaInput TEvent),
            SameOutcome (PromiseFulfils v) c →
            signalsBy c (handler other (event other)) →
            invokeLambda other = Some (SuccessfulInvokeLambdaOutput v))
  ∧ (∀ e, firstSignal (handler input (event input)) = ByAsync (PromiseRejects e) →
          strictEqStr e TIMEOUT_REASON = false →
          invokeLambda input = Some (FailedInvokeLambdaOutput e false)
          ∧ ∀ c (other : InvokeLambdaInput TEvent),
              SameOutcome (PromiseRejects e) c →
              signalsBy c (handler other (event other)) →
              invokeLambda other = Some (FailedInvokeLambdaOutput e false))
  ∧ (∀ s c (other : InvokeLambdaInput TEvent),
       SameOutcome s c →
       firstSignal (handler input (event input)) = ByAsync s →
       signalsBy c (handler other (event other)) →
       invokeLambda input = invokeLambda other)
  ∧ (∀ e c, signalsBy c (handler input (event input)) →
            callFails e c → truthy e = false →
            isThenable (resultOf c) = false →
            invokeLambda input
            = Some (SuccessfulInvokeLambdaOutput (resultOf c)))
  ∧ (∀ v, completion (handler input (event input)) = Returns v →
          invokeLambda input
          = invokeLambda
              (behaving (returningUndefined (handler input (event input))))).
Proof.
  split_and!.
  - intros v Hfirst Hv. split.
    + rewrite invokeLambda_first, Hfirst. by apply output_resolved.
    + intros c other Hsame Hc. rewrite (invokeLambda_call other c Hc).
      rewrite <-(afterSignal_same _ _ Hsame). by apply output_resolved.
  - intros e Hfirst He. split.
    + rewrite invokeLambda_first, Hfirst. by apply output_rejected.
    + intros c other Hsame Hc. rewrite (invokeLambda_call other c Hc).
      rewrite <-(afterSignal_same _ _ Hsame). by apply output_rejected.
  - intros s c other Hsame Hfirst Hc.
    rewrite invokeLambda_first, Hfirst, (invokeLambda_call other c Hc).
    by rewrite (afterSignal_same _ _ Hsame).
  - intros e c Hc Hfails He Hplain. rewrite (invokeLambda_call input c Hc).
    assert (afterCall c = ResolvedWith (resultOf c)) as ->
      by (destruct c; simpl in *; subst; by rewrite ?He).
    by apply output_resolved.
  - intros v H. unfold invokeLambda.
    rewrite !run_first_signal. do 2 f_equal.
    unfold firstSignal, returningUndefined. simpl. by rewrite H.
Qed.

Lemma invokeLambda_conventions_witness :
  invokeLambda (behaving asyncResult)
  = Some (SuccessfulInvokeLambdaOutput (JStr "result"))
  ∧ invokeLambda (behaving (only (BySync (ContextSucceed (JStr "result")))))
    = Some (SuccessfulInvokeLambdaOutput (JStr "result"))
  ∧ invokeLambda (behaving asyncFailure)
    = Some (FailedInvokeLambdaOutput (JObject 1) false)
  ∧ invokeLambda (behaving (only (ByAsync (LateCall (ContextFail (JObject 1))))))
    = Some (FailedInvokeLambdaOutput (JObject 1) false)
  ∧ invokeLambda (behaving asyncResult)
    = invokeLambda
        (behaving (only (BySync (CallbackCall JNull (JStr "result")))))
  ∧ invokeLambda (behaving (only (BySync (ContextFail JNull))))
    = Some (SuccessfulInvokeLambdaOutput JUndefined)
  ∧ invokeLambda (behaving plainResult)
    = invokeLambda (behaving (returningUndefined plainResult)).
Proof.
  destruct (invokeLambda_conventions (behaving asyncResult))
    as (Hfulfils & _ & Hsame & _ & _).
  destruct (invokeLambda_conventions (behaving asyncFailure))
    as (_ & Hrejects & _ & _ & _).
  destruct (invokeLambda_conventions
              (behaving (only (BySync (ContextFail JNull)))))
    as (_ & _ & _ & Hfalsy & _).
  destruct (invokeLambda_conventions (behaving plainResult))
    as (_ & _ & _ & _ & Hreturns).
  destruct (Hfulfils (JStr "result") eq_refl eq_refl) as [Hout Hcalls].
  destruct (Hrejects (JObject 1) eq_refl eq_refl) as [Hout' Hcalls'].
  split; [exact Hout|].
  split.
  { exact (Hcalls _ (behaving (only (BySync (ContextSucceed (JStr "result")))))
             (same_succeed (JStr "result")) (or_introl eq_refl)). }
  split; [exact Hout'|].
  split.
  { exact (Hcalls' _
             (behaving (only (ByAsync (LateCall (ContextFail (JObject 1))))))
             (same_fail (JObject 1) eq_refl) (or_intror eq_refl)). }
  split.
  { exact (Hsame _ _
             (behaving (only (BySync (CallbackCall JNull (JStr "result")))))
             (same_callback_result (JStr "result") JNull eq_refl)
             eq_refl (or_introl eq_refl)). }
  split.
  { exact (Hfalsy JNull (ContextFail JNull) (or_introl eq_refl)
             eq_refl eq_refl eq_refl). }
  exact (Hreturns (JStr "result") eq_refl).
Defined.

End LambdaFacts.

(** * Properties of the queue client *)

Module SqsFacts.
Import SqsHelper SqsNotions.

Example upsert_creates :
  ∃ env, upsertQueue Service.send delayRequest Service.fresh
         = Returned {| upsert_queueUrl := Service.urlOf "orders" |} env.
Proof. eexists. vm_compute. reflexivity. Qed.

Example batch_of_three :
  ∃ env,
    getMessages Service.send 5 (batchOf 2 "orders")
      (Service.holding "orders"
         [Service.message "a" "1"; Service.message "b" "2";
          Service.message "c" "3"])
    = Returned {| messages := [Service.message "a" "1"; Service.message "b" "2"] |}
        env
    ∧ requested (sent env) = [2%Z].
Proof. eexists. split; vm_compute; reflexivity. Qed.

Section Facts.
Context {World : Type}.
Variable send :
  string → ∀ c : Command, SendOptions → World → (Exception + Output c) * World.

Lemma newlySent_app (env env' : Env World) new :
  sent env' = sent env ++ new → newlySent env env' = new.
Proof. intros H. unfold newlySent. rewrite H. by rewrite drop_app_length. Qed.

(** One receive: what it sends, and what it returns. *)
Lemma receiveMessages_inv input messages env :
  ∃ new,
    sent (envOf (receiveMessages send input messages env)) = sent env ++ new
    ∧ requested new
      = [maxNumberOfMessages (batchSize input) (length messages)]
    ∧ (∀ env', receiveMessages send input messages env ≠ Unfinished env')
    ∧ ∀ batch env',
        receiveMessages send input messages env = Returned batch env' →
        (honoursMaximum send →
         (Z.of_nat (length batch)
          ≤ 0 `max` maxNumberOfMessages (batchSize input) (length messages))%Z)
        ∧ (keep input = false →
           Forall (deletedBy new (queueUrl input)) batch).
Proof.
  unfold receiveMessages, bind, clientSend.
  set (c := ReceiveMessageCommand _).
  destruct (send (endpoint input) c _ (world env)) as [[e|res] w] eqn:Hsend;
    simpl.
  { exists [c]. split_and!; try done. }
  destruct res as [[|m ms]|]; simpl.
  - exists [c]. split_and!; try done.
    intros batch env' [= <- <-]. split; [simpl; lia|constructor].
  - destruct (keep input) eqn:Hkeep; simpl.
    + exists [c]. split_and!; try done.
      intros batch env' [= <- <-]. split; [|done].
      intros Hmax. specialize (Hmax _ _ _ _ _ _ Hsend). simpl in *. lia.
    + unfold ret.
      set (d := DeleteMessageBatchCommand _ _).
      destruct (send (endpoint input) d _ w) as [[e|[]] w'] eqn:Hdel; simpl.
      * exists [c; d]. rewrite <- app_assoc. split_and!; try done.
      * exists [c; d]. rewrite <- app_assoc. split_and!; try done.
        intros batch env' [= <- <-]. split.
        -- intros Hmax. specialize (Hmax _ _ _ _ _ _ Hsend). simpl in *. lia.
        -- intros _. apply Forall_forall. intros x Hx.
           exists (toEntry <$> (m :: ms)).
           split; [repeat constructor|]. by apply list_elem_of_fmap_2.
  - exists [c]. split_and!; try done.
    intros batch env' [= <- <-]. split; [simpl; lia|constructor].
Qed.

Lemma requested_app cs cs' : requested (cs ++ cs') = requested cs ++ requested cs'.
Proof. apply omap_app. Qed.

Lemma deletedBy_app_l cs cs' url m : deletedBy cs url m → deletedBy (cs ++ cs') url m.
Proof.
  intros (entries & Hin & Hm). exists entries. split; [|done].
  apply elem_of_app. by left.
Qed.

Lemma deletedBy_app_r cs cs' url m : deletedBy cs' url m → deletedBy (cs ++ cs') url m.
Proof.
  intros (entries & Hin & Hm). exists entries. split; [|done].
  apply elem_of_app. by right.
Qed.

(** The accumulation loop, from any point where a message is still
    wanted. *)
Lemma accumulate_bounds input b fuel :
  honoursMaximum send → batchSize input = Some b →
  ∀ messages env,
    (Z.of_nat (length messages) < b)%Z →
    ∃ new,
      sent (envOf (accumulate send fuel input messages env)) = sent env ++ new
      ∧ requested new
        = (λ nk, Z.min 10 (b - Z.of_nat nk.1))
          <$> receives send fuel input messages env
      ∧ Forall (λ nk, (Z.of_nat nk.1 + Z.of_nat nk.2 ≤ b)%Z)
          (receives send fuel input messages env)
      ∧ ∀ ms env',
          accumulate send fuel input messages env = Returned ms env' →
          (Z.of_nat (length ms) ≤ b)%Z.
Proof.
  intros Hmax Hb. induction fuel as [|fuel IH]; intros messages env Hlt.
  { exists []. simpl. rewrite app_nil_r. split_and!; try done. }
  destruct (receiveMessages_inv input messages env)
    as (new1 & Hsent & Hreq & Hnu & Hret).
  simpl. unfold bind.
  destruct (receiveMessages send input messages env)
    as [batch env1|e env1|env1] eqn:Hrecv; simpl in *.
  - destruct (Hret batch env1 eq_refl) as [Hlen _].
    specialize (Hlen Hmax). rewrite Hb in Hlen, Hreq. simpl in Hlen, Hreq.
    assert (Z.of_nat (length (messages ++ batch)) ≤ b)%Z as Hle
      by (rewrite length_app; lia).
    rewrite Hb. simpl.
    destruct (Z.of_nat (length (messages ++ batch)) <? b)%Z eqn:Hmore.
    + apply Z.ltb_lt in Hmore.
      destruct (IH (messages ++ batch) env1 Hmore)
        as (new2 & Hsent2 & Hreq2 & Hall2 & Hret2).
      exists (new1 ++ new2). split_and!.
      * by rewrite Hsent2, Hsent, app_assoc.
      * rewrite requested_app, Hreq, Hreq2. done.
      * constructor; [simpl; rewrite length_app in Hle; lia|done].
      * done.
    + exists new1. split_and!; try done.
      * constructor; [simpl; rewrite length_app in Hle; lia|constructor].
      * by intros ms env' [= <- <-].
  - rewrite Hb in Hreq. exists new1. split_and!; try done.
    constructor; [simpl; lia|constructor].
  - by destruct (Hnu env1).
Qed.

(** C5. Against a service that never returns more messages than
    asked for, a [getMessages] with a batch size [b] of at least 1
    asks, at each receive, for [min(10, b - accumulated)] messages;
    the number of accumulated messages stays between 0 and [b] before
    and after every receive; and the list it returns has at most [b]
    messages. *)
Theorem getMessages_batch_bounds fuel input b env :
  honoursMaximum send → batchSize input = Some b → (1 ≤ b)%Z →
  requested (newlySent env (envOf (getMessages send fuel input env)))
  = (λ nk, Z.min 10 (b - Z.of_nat nk.1)) <$> receives send fuel input [] env
  ∧ Forall (λ nk, (0 ≤ Z.of_nat nk.1
                   ∧ Z.of_nat nk.1 + Z.of_nat nk.2 ≤ b)%Z)
      (receives send fuel input [] env)
  ∧ ∀ res env',
      getMessages send fuel input env = Returned res env' →
      (Z.of_nat (length (messages res)) ≤ b)%Z.
Proof.
  intros Hmax Hb Hpos.
  destruct (accumulate_bounds input b fuel Hmax Hb [] env)
    as (new & Hsent & Hreq & Hall & Hret); [simpl; lia|].
  unfold getMessages. rewrite Hb.
  destruct (b <? 1)%Z eqn:Hlt; [apply Z.ltb_lt in Hlt; lia|].
  unfold bind, ret.
  destruct (accumulate send fuel input [] env) as [ms env1|e env1|env1];
    simpl in *.
  - split_and!.
    + by rewrite (newlySent_app _ _ _ Hsent).
    + eapply Forall_impl; [exact Hall|]. simpl. lia.
    + intros res env' [= <- <-]. simpl. by eapply Hret.
  - split_and!; [by rewrite (newlySent_app _ _ _ Hsent)| |done].
    eapply Forall_impl; [exact Hall|]. simpl. lia.
  - split_and!; [by rewrite (newlySent_app _ _ _ Hsent)| |done].
    eapply Forall_impl; [exact Hall|]. simpl. lia.
Qed.

End Facts.

Lemma serve_receive i w ms :
  fst (Service.serve (ReceiveMessageCommand i) w) = inr (Some ms) →
  (Z.of_nat (length ms) ≤ MaxNumberOfMessages i)%Z.
Proof.
  simpl. destruct (Service.queues w !! rm_QueueUrl i) as [q|]; [|done].
  destruct ((MaxNumberOfMessages i <? 1) || (10 <? MaxNumberOfMessages i))%Z
    eqn:Hrange; [done|].
  apply orb_false_iff in Hrange as [H1 H2]. apply Z.ltb_ge in H1.
  destruct (take _ _) as [|m l] eqn:Htake; [done|].
  simpl. intros [= <-]. rewrite <- Htake, length_take. lia.
Qed.

Lemma service_honoursMaximum : honoursMaximum Service.send.
Proof.
  intros ep i opts w ms w'. unfold Service.send.
  destruct (opt_abortSignal opts); [destruct (Service.abort_fired w); [done|]|];
    intros [= H _]; by apply (serve_receive i w).
Qed.

Lemma getMessages_batch_bounds_witness :
  let input := batchOf 2 "orders" in
  let env :=
    Service.holding "orders"
      [Service.message "a" "1"; Service.message "b" "2";
       Service.message "c" "3"] in
  honoursMaximum Service.send ∧ batchSize input = Some 2%Z ∧ (1 ≤ 2)%Z
  ∧ requested (newlySent env (envOf (getMessages Service.send 5 input env)))
    = (λ nk, Z.min 10 (2 - Z.of_nat nk.1))
      <$> receives Service.send 5 input [] env.
Proof.
  intros input env.
  split; [exact service_honoursMaximum|].
  split; [reflexivity|]. split; [lia|].
  apply (getMessages_batch_bounds Service.send 5 input 2 env
           service_honoursMaximum eq_refl).
  lia.
Defined.

Example parseNumber_42 : parseNumber "42" = Some (JNum 42).
Proof. reflexivity. Qed.

Example parseNumber_undefined : parseNumber "undefined" = None.
Proof. reflexivity. Qed.

Section JsonFacts.
Context {World T : Type}.
Variable send :
  string → ∀ c : Command, SendOptions → World → (Exception + Output c) * World.
Variable JSON_parse : string → option T.

Lemma mapParse_unparsable msgs m :
  JSON_parse "undefined" = None →
  m ∈ msgs → unparsable JSON_parse m →
  mapParse JSON_parse msgs = inl jsonSyntaxError.
Proof.
  intros Hundef Hin Hbad.
  induction msgs as [|x msgs IH]; [by apply elem_of_nil in Hin|].
  simpl. unfold parseBody at 1.
  destruct (JSON_parse (default "undefined" (Body x))) as [o|] eqn:Hx; [|done].
  apply elem_of_cons in Hin as [->|Hin].
  - destruct Hbad as [Hb|(str & Hb & Hs)]; rewrite Hb in Hx; simpl in Hx;
      congruence.
  - by rewrite (IH Hin).
Qed.

Lemma mapParse_all msgs js :
  mapParse JSON_parse msgs = inr js →
  json_message <$> js = msgs
  ∧ Forall (λ j, JSON_parse (default "undefined" (Body (json_message j)))
                 = Some (Object j)) js.
Proof.
  revert js. induction msgs as [|x msgs IH]; intros js; simpl.
  { intros [= <-]. by split. }
  unfold parseBody at 1.
  destruct (JSON_parse (default "undefined" (Body x))) as [o|] eqn:Hx; [|done].
  destruct (mapParse JSON_parse msgs) as [e|js'] eqn:Hrest; [done|].
  intros [= <-]. destruct (IH js' eq_refl) as [Hmsgs Hall].
  split; [by rewrite fmap_cons, Hmsgs|]. by constructor.
Qed.

(** Without [keep], the loop has asked the service to delete every
    message it holds. *)
Lemma accumulate_deleted input fuel :
  keep input = false →
  ∀ messages env ms env',
    accumulate send fuel input messages env = Returned ms env' →
    ∃ new,
      sent env' = sent env ++ new
      ∧ ∀ m, m ∈ ms → m ∈ messages ∨ deletedBy new (queueUrl input) m.
Proof.
  intros Hkeep. induction fuel as [|fuel IH]; intros messages env ms env';
    [done|].
  destruct (receiveMessages_inv send input messages env)
    as (new1 & Hsent & _ & _ & Hret).
  simpl. unfold bind.
  destruct (receiveMessages send input messages env)
    as [batch env1|e env1|env1] eqn:Hrecv; simpl in *; [|done|done].
  destruct (Hret batch env1 eq_refl) as [_ Hdel].
  specialize (Hdel Hkeep). rewrite Forall_forall in Hdel.
  destruct (moreWanted (batchSize input) (messages ++ batch)).
  - intros Hacc. destruct (IH _ _ _ _ Hacc) as (new2 & Hsent2 & Hall).
    exists (new1 ++ new2). split; [by rewrite Hsent2, Hsent, app_assoc|].
    intros m Hm. destruct (Hall m Hm) as [Hin|Hd].
    + apply elem_of_app in Hin as [Hin|Hin]; [by left|].
      right. by apply deletedBy_app_l, Hdel.
    + right. by apply deletedBy_app_r.
  - intros [= <- <-]. exists new1. split; [done|].
    intros m Hm. apply elem_of_app in Hm as [Hm|Hm]; [by left|].
    right. by apply Hdel.
Qed.

Lemma getMessages_deleted input fuel env res env' :
  keep input = false →
  getMessages send fuel input env = Returned res env' →
  Forall (deletedBy (newlySent env env') (queueUrl input)) (messages res).
Proof.
  intros Hkeep. unfold getMessages.
  assert (∀ ms env1,
            accumulate send fuel input [] env = Returned ms env1 →
            Forall (deletedBy (newlySent env env1) (queueUrl input)) ms)
    as Hacc.
  { intros ms env1 H.
    destruct (accumulate_deleted input fuel Hkeep _ _ _ _ H)
      as (new & Hsent & Hall).
    rewrite (newlySent_app _ _ _ Hsent). apply Forall_forall.
    intros m Hm. destruct (Hall m Hm) as [Hin|Hd]; [|done].
    by apply elem_of_nil in Hin. }
  unfold bind, ret.
  destruct (batchSize input) as [b|]; [destruct (b <? 1)%Z; [done|]|];
    destruct (accumulate send fuel input [] env) as [ms env1|e env1|env1];
    try done; intros [= <- <-]; by apply Hacc.
Qed.

(** C10. [getJsonMessages] parses the bodies once [getMessages] has
    returned.  If some message of the batch has no body or a body
    that is not JSON, the call throws the [SyntaxError] and returns
    nothing, in the state [getMessages] left, where, without [keep],
    a delete request was sent for every message of the batch.  When
    the call does return, every message of the batch is in its
    output with its parsed body. *)
Theorem getJsonMessages_all_or_nothing fuel input env res env' :
  JSON_parse "undefined" = None →
  getMessages send fuel input env = Returned res env' →
  ((∃ m, m ∈ messages res ∧ unparsable JSON_parse m) →
   getJsonMessages send JSON_parse fuel input env
   = Raised jsonSyntaxError env'
   ∧ (keep input = false →
      Forall (deletedBy (newlySent env env') (queueUrl input))
        (messages res)))
  ∧ ∀ out env'',
      getJsonMessages send JSON_parse fuel input env = Returned out env'' →
      env'' = env'
      ∧ json_message <$> json_messages out = messages res
      ∧ Forall (λ j, JSON_parse (default "undefined" (Body (json_message j)))
                     = Some (Object j)) (json_messages out).
Proof.
  intros Hundef Hget. unfold getJsonMessages, bind. rewrite Hget. split.
  - intros (m & Hin & Hbad).
    rewrite (mapParse_unparsable _ _ Hundef Hin Hbad). split; [done|].
    intros Hkeep. by eapply getMessages_deleted.
  - intros out env''.
    destruct (mapParse JSON_parse (messages res)) as [e|js] eqn:Hparse;
      [done|].
    intros [= <- <-]. split; [done|]. by apply mapParse_all.
Qed.

End JsonFacts.

Lemma getJsonMessages_all_or_nothing_witness :
  let input := batchOf 2 "orders" in
  let msgs := [Service.message "a" "1"; Service.message "b" "{"] in
  let env := Service.holding "orders" msgs in
  ∃ env',
    parseNumber "undefined" = None
    ∧ getMessages Service.send 5 input env = Returned {| messages := msgs |} env'
    ∧ (∃ m, m ∈ msgs ∧ unparsable parseNumber m)
    ∧ getJsonMessages Service.send parseNumber 5 input env
      = Raised jsonSyntaxError env'
    ∧ Forall (deletedBy (newlySent env env') (queueUrl input)) msgs.
Proof.
  intros input msgs env. eexists.
  assert (∃ m, m ∈ msgs ∧ unparsable parseNumber m) as Hbad.
  { exists (Service.message "b" "{"). split; [repeat constructor|].
    right. by exists "{". }
  split; [reflexivity|].
  split; [vm_compute; reflexivity|].
  split; [exact Hbad|].
  pose proof (proj1 (getJsonMessages_all_or_nothing Service.send parseNumber
                       5 input env {| messages := msgs |} _ eq_refl eq_refl)
                Hbad) as [Hraised Hdeleted].
  split; [exact Hraised|]. by apply Hdeleted.
Defined.

Section UpsertFacts.
Context {World : Type}.
Variable send :
  string → ∀ c : Command, SendOptions → World → (Exception + Output c) * World.

(** C6. When the queue exists, its attributes differ from the
    defaults merged with the requested ones, and [force] is not set,
    [upsertQueue] fails with [QueueNameExists] after two requests
    that only read, the look-up of the URL and the fetch of the
    attributes: no delete, no create, no change is sent. *)
Theorem upsertQueue_conflict input env url actual w1 w2 :
  send (upsert_endpoint input) (GetQueueUrlCommand (QueueName (command input)))
    noOptions (world env) = (inr url, w1) →
  send (upsert_endpoint input)
    (GetQueueAttributesCommand RECOGNIZED_ATTRIBUTES url) noOptions w1
    = (inr actual, w2) →
  shallowEqual actual (expectedAttributes (command input)) = false →
  force input = false →
  upsertQueue send input env
  = Raised queueNameExists
      {| world := w2;
         sent := sent env
                 ++ [GetQueueUrlCommand (QueueName (command input));
                     GetQueueAttributesCommand RECOGNIZED_ATTRIBUTES url] |}
  ∧ Forall (λ c, isMutation c = false)
      (newlySent env (envOf (upsertQueue send input env))).
Proof.
  intros Hurl Hattrs Hdiff Hforce.
  assert (upsertQueue send input env
          = Raised queueNameExists
              {| world := w2;
                 sent := sent env
                         ++ [GetQueueUrlCommand (QueueName (command input));
                             GetQueueAttributesCommand
                               RECOGNIZED_ATTRIBUTES url] |}) as Hrun.
  { unfold upsertQueue, getQueueUrl, clientSend. rewrite Hurl.
    unfold try_catch, checkAttributes, bind, clientSend. simpl.
    rewrite Hattrs, Hdiff. simpl.
    unfold upsertCatch. simpl. rewrite Hforce. simpl.
    unfold throw. by rewrite <- app_assoc. }
  split; [done|]. rewrite Hrun. simpl.
  erewrite newlySent_app by reflexivity. by repeat constructor.
Qed.

(** An attribute of the request that the fetch does not ask for is
    never among the fetched ones, so the comparison fails whatever
    the queue holds. *)
Lemma shallowEqual_unrecognized input attrs k v actual :
  cq_Attributes input = Some attrs → attrs !! k = Some v →
  k ∉ RECOGNIZED_ATTRIBUTES →
  (∀ a, actual = Some a → ∀ k', is_Some (a !! k') → k' ∈ RECOGNIZED_ATTRIBUTES) →
  shallowEqual actual (expectedAttributes input) = false.
Proof.
  intros Hattrs Hk Hnot Hdom. destruct actual as [a|]; [|done].
  simpl. apply bool_decide_eq_false. intros ->.
  apply Hnot, (Hdom _ eq_refl). exists v.
  unfold expectedAttributes, Object_assign. rewrite Hattrs. simpl.
  by apply lookup_union_Some_l.
Qed.

End UpsertFacts.

Lemma upsertQueue_conflict_witness :
  ∃ env w1 w2 actual,
    upsertQueue Service.send
      {| command := {| QueueName := "orders"; cq_Attributes := None |};
         upsert_endpoint := "http://127.0.0.1:4566"; force := false |}
      Service.fresh
    = Returned {| upsert_queueUrl := Service.urlOf "orders" |} env
    ∧ Service.send "http://127.0.0.1:4566" (GetQueueUrlCommand "orders")
        noOptions (world env) = (inr (Service.urlOf "orders"), w1)
    ∧ Service.send "http://127.0.0.1:4566"
        (GetQueueAttributesCommand RECOGNIZED_ATTRIBUTES (Service.urlOf "orders"))
        noOptions w1 = (inr actual, w2)
    ∧ shallowEqual actual (expectedAttributes (command delayRequest)) = false
    ∧ force delayRequest = false
    ∧ upsertQueue Service.send delayRequest env
      = Raised queueNameExists
          {| world := w2;
             sent := sent env
                     ++ [GetQueueUrlCommand "orders";
                         GetQueueAttributesCommand RECOGNIZED_ATTRIBUTES
                           (Service.urlOf "orders")] |}.
Proof.
  eexists. eexists. eexists. eexists.
  split; [vm_compute; reflexivity|].
  split; [vm_compute; reflexivity|].
  split; [vm_compute; reflexivity|].
  split; [vm_compute; reflexivity|].
  split; [reflexivity|].
  refine (proj1 (upsertQueue_conflict Service.send delayRequest _ _ _ _ _
                   _ _ _ eq_refl)).
  - vm_compute; reflexivity.
  - vm_compute; reflexivity.
  - vm_compute; reflexivity.
Defined.

(** The same request twice, with attributes that are all fetched: the
    second call returns the URL and sends nothing but the two reads,
    whatever else the service keeps about the queue. *)
Example upsertQueue_twice_delay :
  ∃ env env',
    upsertQueue Service.send delayRequest Service.fresh
    = Returned {| upsert_queueUrl := Service.urlOf "orders" |} env
    ∧ upsertQueue Service.send delayRequest env
      = Returned {| upsert_queueUrl := Service.urlOf "orders" |} env'
    ∧ world env' = world env
    ∧ Forall (λ c, isMutation c = false) (newlySent env env').
Proof.
  eexists. eexists.
  split; [vm_compute; reflexivity|].
  split; [vm_compute; reflexivity|].
  split; [vm_compute; reflexivity|].
  vm_compute. by repeat constructor.
Qed.

(** C4, at a request with an attribute that is not among those
    fetched: the first call creates the FIFO queue and returns its
    URL; the second call, with the same request, fails with
    [QueueNameExists]. *)
Theorem upsertQueue_twice_fifo :
  ∃ env env',
    upsertQueue Service.send fifoRequest Service.fresh
    = Returned {| upsert_queueUrl := Service.urlOf "orders.fifo" |} env
    ∧ upsertQueue Service.send fifoRequest env = Raised queueNameExists env'.
Proof.
  eexists. eexists.
  split; [vm_compute; reflexivity|].
  vm_compute; reflexivity.
Qed.

End SqsFacts.

(** * Properties of the poll orchestrator *)

Module PollFacts.
Import SqsLambdaHelper PollNotions.

(** The run of the repository's test: two messages, a batch size of
    one; nothing stops the loop. *)
Example polls_on :
  ∃ env,
    runSqsLambda Service.send Service.aborted None 2 3
      (polling 1 resolving None None (QueueName "orders"))
      (Service.holding "orders"
         [Service.message "a" "0"; Service.message "b" "1"])
    = SqsHelper.Unfinished env
    ∧ Service.q_messages
        <$> (Service.queues (SqsHelper.world env) !! Service.urlOf "orders")
      = Some [].
Proof. eexists. split; vm_compute; reflexivity. Qed.

(** The abort signal fires while a receive is waiting for a third
    message: the run ends without an error. *)
Example aborted_while_polling :
  ∃ env,
    runSqsLambda Service.send Service.aborted None 2 3
      (polling 3 resolving None (Some (Signal 0))
         (QueueUrl (Service.urlOf "orders")))
      (Service.abortingAfter 2
         (Service.holding "orders"
            [Service.message "a" "0"; Service.message "b" "1"]))
    = SqsHelper.Returned tt env.
Proof. eexists. vm_compute. reflexivity. Qed.

Example abortError_is_recognised : isAbortError AbortError = true.
Proof. reflexivity. Qed.

Section Facts.
Context {World : Type}.
Variable send :
  string → ∀ c : SqsHelper.Command, SqsHelper.SendOptions → World →
  (Exception + SqsHelper.Output c) * World.
Variable aborted : AbortSignal → World → bool.
Variable AWS_REGION : option string.

(** C7. In an iteration of the loop, a [getMessages] that fails
    because the request was aborted (an [Error] named
    ["AbortError"]) ends the loop and the run without an error; a
    [getMessages] that fails with anything else makes the run fail
    with that error at once. *)
Theorem pollLoop_receive_failure polls receives input queueUrl
    env env1 error env2 :
  keepPolling aborted input (SqsHelper.world env) = true →
  logCall (Logger.info (loggerOf input)) pollingText env
    = SqsHelper.Returned tt env1 →
  SqsHelper.getMessages send receives (pollInput input queueUrl) env1
    = SqsHelper.Raised error env2 →
  pollLoop send aborted AWS_REGION (S polls) receives input queueUrl env
  = if isAbortError error then SqsHelper.Returned tt env2
    else SqsHelper.Raised error env2.
Proof.
  intros Hkeep Hlog Hget. simpl. rewrite Hkeep.
  unfold SqsHelper.bind at 1. rewrite Hlog.
  unfold SqsHelper.bind at 1. unfold poll, SqsHelper.try_catch.
  unfold SqsHelper.bind at 1. rewrite Hget.
  by destruct (isAbortError error).
Qed.

(** C8, amended. After the invocation, when the logger's method
    returns, the loop goes on from the state the logger left: it
    checks the abort signal and polls again.  When the logger's
    method throws, the run fails with what it threw. *)
Theorem pollLoop_report polls receives input queueUrl
    env env1 messages env2 env3 output env4 :
  keepPolling aborted input (SqsHelper.world env) = true →
  logCall (Logger.info (loggerOf input)) pollingText env
    = SqsHelper.Returned tt env1 →
  poll send receives input queueUrl env1
    = SqsHelper.Returned (Some messages) env2 →
  logCall (Logger.info (loggerOf input)) (invokingText messages) env2
    = SqsHelper.Returned tt env3 →
  invoke input (batchEvent AWS_REGION messages) env3
    = SqsHelper.Returned output env4 →
  (∀ env5,
     report (loggerOf input) output env4 = SqsHelper.Returned tt env5 →
     pollLoop send aborted AWS_REGION (S polls) receives input queueUrl env
     = pollLoop send aborted AWS_REGION polls receives input queueUrl env5)
  ∧ (∀ e env5,
       report (loggerOf input) output env4 = SqsHelper.Raised e env5 →
       pollLoop send aborted AWS_REGION (S polls) receives input queueUrl env
       = SqsHelper.Raised e env5).
Proof.
  intros Hkeep Hlog Hpoll Hlog' Hinvoke.
  assert (pollLoop send aborted AWS_REGION (S polls) receives input queueUrl env
          = SqsHelper.bind (report (loggerOf input) output)
              (λ _, pollLoop send aborted AWS_REGION polls receives input
                      queueUrl) env4) as Hstep.
  { simpl. rewrite Hkeep.
    unfold SqsHelper.bind at 1. rewrite Hlog.
    unfold SqsHelper.bind at 1. rewrite Hpoll.
    unfold SqsHelper.bind at 1. rewrite Hlog'.
    unfold SqsHelper.bind at 1. by rewrite Hinvoke. }
  rewrite Hstep. unfold SqsHelper.bind.
  split; [intros env5 ->|intros e env5 ->]; done.
Qed.

End Facts.

Lemma pollLoop_receive_failure_witness :
  let input :=
    polling 3 resolving None (Some (Signal 0))
      (QueueUrl (Service.urlOf "orders")) in
  let env :=
    Service.abortingAfter 0
      (Service.holding "orders"
         [Service.message "a" "0"; Service.message "b" "1"]) in
  ∃ env2,
    keepPolling Service.aborted input (SqsHelper.world env) = true
    ∧ logCall (Logger.info (loggerOf input)) pollingText env
      = SqsHelper.Returned tt env
    ∧ SqsHelper.getMessages Service.send 3
        (pollInput input (Service.urlOf "orders")) env
      = SqsHelper.Raised AbortError env2
    ∧ pollLoop Service.send Service.aborted None 2 3 input
        (Service.urlOf "orders") env
      = SqsHelper.Returned tt env2.
Proof.
  intros input env. eexists.
  split; [reflexivity|]. split; [reflexivity|].
  split; [vm_compute; reflexivity|].
  apply (pollLoop_receive_failure Service.send Service.aborted None 1 3 input
           (Service.urlOf "orders") env env AbortError _ eq_refl eq_refl).
  vm_compute; reflexivity.
Defined.

(** C8, as stated, fails: with a logger whose [error] method throws,
    the report of a failed invocation makes the run fail with what the
    logger threw, while the queue still holds a message and nothing
    aborted the run. *)
Lemma throwing_logger_ends_the_run :
  ∃ env,
    runSqsLambda Service.send Service.aborted None 3 3
      (polling 1 rejecting (Some throwingLogger) None (QueueName "orders"))
      (Service.holding "orders"
         [Service.message "a" "0"; Service.message "b" "1"])
    = SqsHelper.Raised sinkClosed env
    ∧ Service.q_messages
        <$> (Service.queues (SqsHelper.world env) !! Service.urlOf "orders")
      = Some [Service.message "b" "1"].
Proof. eexists. split; vm_compute; reflexivity. Qed.

Lemma pollLoop_report_witness :
  let input := polling 1 resolving None None (QueueName "orders") in
  let env := Service.holding "orders" [Service.message "a" "0"] in
  ∃ env2,
    keepPolling Service.aborted input (SqsHelper.world env) = true
    ∧ logCall (Logger.info (loggerOf input)) pollingText env
      = SqsHelper.Returned tt env
    ∧ poll Service.send 3 input (Service.urlOf "orders") env
      = SqsHelper.Returned (Some [Service.message "a" "0"]) env2
    ∧ logCall (Logger.info (loggerOf input))
        (invokingText [Service.message "a" "0"]) env2
      = SqsHelper.Returned tt env2
    ∧ invoke input (batchEvent None [Service.message "a" "0"]) env2
      = SqsHelper.Returned
          (LambdaHelper.SuccessfulInvokeLambdaOutput JUndefined) env2
    ∧ report (loggerOf input)
        (LambdaHelper.SuccessfulInvokeLambdaOutput JUndefined) env2
      = SqsHelper.Returned tt env2
    ∧ pollLoop Service.send Service.aborted None 2 3 input
        (Service.urlOf "orders") env
      = pollLoop Service.send Service.aborted None 1 3 input
          (Service.urlOf "orders") env2.
Proof.
  intros input env. eexists.
  split; [reflexivity|]. split; [reflexivity|].
  split; [vm_compute; reflexivity|].
  split; [reflexivity|]. split; [reflexivity|]. split; [reflexivity|].
  refine (proj1 (pollLoop_report Service.send Service.aborted None 1 3 input
                   (Service.urlOf "orders") env _
                   [Service.message "a" "0"] _ _
                   (LambdaHelper.SuccessfulInvokeLambdaOutput JUndefined) _
                   _ _ _ _ _) _ _).
  - reflexivity.
  - reflexivity.
  - vm_compute; reflexivity.
  - reflexivity.
  - reflexivity.
  - vm_compute; reflexivity.
Defined.

End PollFacts.

(** * More properties of the invocation engine *)

Module LambdaMore.
Import LambdaHelper LambdaSignals MoreNotions LambdaFacts.

(** X1. A failure reported through the callback, [done] or [fail] with
    a falsy error (no error at all, [null], [false], [0], the empty
    string) is no failure: when such a call is the first signal, the
    invocation ends as if the call had reported its result, and after
    [fail] it is a success with no result. *)
Theorem falsy_error_is_success {TEvent} (input : InvokeLambdaInput TEvent)
    (e : JsValue) (c : Call) :
  callFails e c → truthy e = false →
  firstSignal (handler input (event input)) = BySync c
  ∨ firstSignal (handler input (event input)) = ByAsync (LateCall c) →
  invokeLambda input = output (ResolvedWith (resultOf c))
  ∧ (c = ContextFail e →
     invokeLambda input = Some (SuccessfulInvokeLambdaOutput JUndefined)).
Proof.
  intros Hc He Hfirst.
  assert (invokeLambda input = output (ResolvedWith (resultOf c))) as Hout.
  { unfold invokeLambda. rewrite run_first_signal.
    assert (afterSignal (firstSignal (handler input (event input)))
            = afterCall c) as -> by (by destruct Hfirst as [-> | ->]).
    destruct c; simpl in *; subst; by rewrite ?He. }
  split; [done|]. intros ->. rewrite Hout. reflexivity.
Qed.

Lemma falsy_error_is_success_witness :
  callFails JUndefined (ContextFail JUndefined)
  ∧ truthy JUndefined = false
  ∧ invokeLambda (behaving failingWithNothing)
    = Some (SuccessfulInvokeLambdaOutput JUndefined).
Proof.
  split; [reflexivity|]. split; [reflexivity|].
  apply (proj2 (falsy_error_is_success (behaving failingWithNothing)
                  JUndefined (ContextFail JUndefined) eq_refl eq_refl
                  (or_introl eq_refl))).
  reflexivity.
Defined.

(** X2. A handler that throws before it made any call, or whose
    returned promise rejects before any other signal, ends as a failure
    that carries what was thrown, whatever it is (also [undefined]),
    with [timeout] unset, unless it is the string of the timer. *)
Theorem thrown_error_is_failure {TEvent} (input : InvokeLambdaInput TEvent)
    (e : JsValue) :
  firstSignal (handler input (event input)) = ByThrow e
  ∨ firstSignal (handler input (event input)) = ByAsync (PromiseRejects e) →
  strictEqStr e TIMEOUT_REASON = false →
  invokeLambda input = Some (FailedInvokeLambdaOutput e false).
Proof.
  intros Hfirst He. unfold invokeLambda. rewrite run_first_signal.
  assert (afterSignal (firstSignal (handler input (event input)))
          = RejectedWith e) as -> by (by destruct Hfirst as [-> | ->]).
  unfold output. simpl. by rewrite He.
Qed.

Lemma thrown_error_is_failure_witness :
  firstSignal (handler (behaving throwing) (event (behaving throwing)))
    = ByThrow (JObject 1)
  ∧ strictEqStr (JObject 1) TIMEOUT_REASON = false
  ∧ invokeLambda (behaving throwing)
    = Some (FailedInvokeLambdaOutput (JObject 1) false).
Proof.
  split; [reflexivity|]. split; [reflexivity|].
  apply thrown_error_is_failure; [by left|reflexivity].
Defined.


Example resolving_forever_never_returns :
  invokeLambda (behaving resolvingForever) = None.
Proof. reflexivity. Qed.

Lemma calls_clear_the_timer cs st :
  cs ≠ [] →
  timeoutId (fold_left (λ st c, call c st) cs st) = None
  ∧ promiseSettled (fold_left (λ st c, call c st) cs st) = true.
Proof.
  intros Hcs. destruct cs as [|c cs]; [done|]. simpl.
  assert (settled (call c st)) as Hs.
  { destruct st as [[|] [t|] p a];
      destruct c; unfold call, callback; simpl; try destruct (truthy _);
      by split. }
  destruct (calls_settled cs _ Hs) as [_ [? ?]]. by split.
Qed.

(** X4. The timer does not outlive a settlement made while the handler
    runs: when the handler has called the callback or a context method,
    or has thrown, the timer is cleared and the flag is set by the time
    its synchronous run is over. *)
Theorem timer_cleared_by_sync_signal (b : Behaviour) :
  sync_calls b ≠ [] ∨ (∃ e, completion b = Throws e) →
  timeoutId (afterSyncRun b) = None
  ∧ promiseSettled (afterSyncRun b) = true
  ∧ run b = onTimeout (fold_left (λ st a, deliver a st) (later b) (afterSyncRun b))
  ∧ promise (run b) = promise (afterSyncRun b).
Proof.
  intros H. unfold afterSyncRun.
  assert (settled (complete (completion b)
                     (fold_left (λ st c, call c st) (sync_calls b) started)))
    as Hs.
  { destruct (sync_calls b) as [|c cs] eqn:Hcs.
    - destruct H as [H|[e He]]; [done|]. rewrite He. simpl.
      by apply (reject_waiting e _ started_waiting).
    - destruct (calls_clear_the_timer (c :: cs) started) as [Ht Hp]; [done|].
      by apply complete_settled. }
  destruct Hs as [Hp Ht]. split_and!; try done.
  unfold run. by apply settled_to_the_end.
Qed.

Lemma timer_cleared_by_sync_signal_witness :
  (sync_calls failingWithNothing ≠ []
   ∨ ∃ e, completion failingWithNothing = Throws e)
  ∧ timeoutId (afterSyncRun failingWithNothing) = None.
Proof.
  assert (sync_calls failingWithNothing ≠ []
          ∨ ∃ e, completion failingWithNothing = Throws e) as H by (by left).
  split; [exact H|].
  exact (proj1 (timer_cleared_by_sync_signal failingWithNothing H)).
Defined.

End LambdaMore.

(** * More properties of the queue client *)

Module SqsMore.
Import SqsHelper SqsNotions MoreSqsNotions SqsFacts.

Section Facts.
Context {World T : Type}.
Variable send :
  string → ∀ c : Command, SendOptions → World → (Exception + Output c) * World.
Variable JSON_parse : string → option T.

(** X5. A batch size below 1 is refused before anything is sent: both
    [getMessages] and [getJsonMessages] fail with the batch size error
    in the state they were called in. *)
Theorem batch_size_refused_before_sending fuel input b env :
  batchSize input = Some b → (b < 1)%Z →
  getMessages send fuel input env = Raised batchSizeError env
  ∧ getJsonMessages send JSON_parse fuel input env = Raised batchSizeError env.
Proof.
  intros Hb Hlt.
  assert (getMessages send fuel input env = Raised batchSizeError env) as H.
  { unfold getMessages. rewrite Hb.
    by destruct (b <? 1)%Z eqn:E; [|apply Z.ltb_ge in E; lia]. }
  split; [done|]. unfold getJsonMessages, bind. by rewrite H.
Qed.

(** X6. Without a batch size, [getMessages] makes one receive, for ten
    messages, with no wait and a zero visibility timeout, and returns
    what that receive gave: it never waits for more, and an empty answer
    gives an empty list. *)
Theorem getMessages_single_receive fuel input env :
  batchSize input = None →
  (∀ env', getMessages send (S fuel) input env ≠ Unfinished env')
  ∧ head (newlySent env (envOf (getMessages send (S fuel) input env)))
    = Some (plainReceive input)
  ∧ requested (newlySent env (envOf (getMessages send (S fuel) input env)))
    = [10%Z]
  ∧ (∀ res env',
       getMessages send (S fuel) input env = Returned res env' →
       ∃ answer w,
         send (endpoint input) (plainReceive input) (optionsOf input) (world env)
         = (inr answer, w)
         ∧ messages res = default [] answer)
  ∧ (∀ w,
       send (endpoint input) (plainReceive input) (optionsOf input) (world env)
       = (inr None, w) →
       getMessages send (S fuel) input env
       = Returned {| messages := [] |}
           {| world := w; sent := sent env ++ [plainReceive input] |}).
Proof.
  intros Hb. unfold getMessages, plainReceive, optionsOf. rewrite Hb. simpl.
  unfold bind at 1 2. unfold receiveMessages, bind, clientSend. rewrite Hb. simpl.
  set (c := ReceiveMessageCommand _).
  destruct (send (endpoint input) c _ (world env)) as [[e|answer] w] eqn:Hsend.
  { simpl. erewrite newlySent_app by reflexivity. by split_and!. }
  destruct answer as [[|m ms]|]; simpl.
  - erewrite newlySent_app by reflexivity. split_and!; try done.
    intros res env' [= <- <-]. by exists (Some []), w.
  - destruct (keep input); simpl.
    + erewrite newlySent_app by reflexivity. split_and!; try done.
      intros res env' [= <- <-]. by exists (Some (m :: ms)), w.
    + unfold ret. set (d := DeleteMessageBatchCommand _ _).
      destruct (send (endpoint input) d _ w) as [[e|[]] w'];
        simpl; rewrite <- app_assoc;
        erewrite newlySent_app by reflexivity; split_and!; try done.
      intros res env' [= <- <-]. by exists (Some (m :: ms)), w.
  - erewrite newlySent_app by reflexivity. split_and!; try done.
    + intros res env' [= <- <-]. by exists None, w.
    + by intros w0 [= <-].
Qed.

Lemma accumulate_enough fuel input :
  ∀ messages env ms env',
    accumulate send fuel input messages env = Returned ms env' →
    moreWanted (batchSize input) ms = false.
Proof.
  induction fuel as [|fuel IH]; intros messages env ms env'; [done|].
  simpl. unfold bind.
  destruct (receiveMessages send input messages env) as [batch env1|e env1|env1];
    [|done|done].
  destruct (moreWanted (batchSize input) (messages ++ batch)) eqn:Hmore.
  - apply IH.
  - by intros [= <- <-].
Qed.

Lemma accumulate_exact fuel input b env ms env' :
  honoursMaximum send → batchSize input = Some b → (1 ≤ b)%Z →
  accumulate send fuel input [] env = Returned ms env' →
  Z.of_nat (length ms) = b.
Proof.
  intros Hmax Hb Hpos Hacc.
  destruct (accumulate_bounds send input b fuel Hmax Hb [] env)
    as (_ & _ & _ & _ & Hle); [simpl; lia|].
  specialize (Hle ms env' Hacc).
  pose proof (accumulate_enough _ _ _ _ _ _ Hacc) as Hge.
  rewrite Hb in Hge. simpl in Hge. apply Z.ltb_ge in Hge. lia.
Qed.

(** X7. Against a service that never returns more messages than asked
    for, a [getMessages] with a batch size [b] of at least 1 returns,
    when it returns, exactly [b] messages. *)
Theorem getMessages_exact_batch fuel input b env res env' :
  honoursMaximum send → batchSize input = Some b → (1 ≤ b)%Z →
  getMessages send fuel input env = Returned res env' →
  Z.of_nat (length (messages res)) = b.
Proof.
  intros Hmax Hb Hpos. unfold getMessages. rewrite Hb.
  destruct (b <? 1)%Z eqn:Hlt; [apply Z.ltb_lt in Hlt; lia|].
  unfold bind, ret.
  destruct (accumulate send fuel input [] env) as [ms env1|e env1|env1] eqn:Hacc;
    [|done|done].
  intros [= <- <-]. simpl. by eapply accumulate_exact.
Qed.




(** X9. The attributes an existing queue is compared with: for each
    name, the value of the request when the request has one, and the
    default otherwise. *)
Theorem expectedAttributes_lookup input k :
  expectedAttributes input !! k
  = match cq_Attributes input ≫= (.!! k) with
    | Some v => Some v
    | None => DEFAULT_ATTRIBUTES !! k
    end.
Proof.
  unfold expectedAttributes, Object_assign. simpl.
  destruct (cq_Attributes input) as [attrs|]; simpl.
  - rewrite !lookup_union, lookup_empty.
    destruct (attrs !! k), (DEFAULT_ATTRIBUTES !! k); done.
  - rewrite lookup_union, lookup_empty.
    by destruct (DEFAULT_ATTRIBUTES !! k).
Qed.

Lemma clientSend_returns ep c opts w sent0 (o : Output c) w' :
  send ep c opts w = (inr o, w') →
  clientSend send ep c opts {| world := w; sent := sent0 |}
  = Returned o {| world := w'; sent := sent0 ++ [c] |}.
Proof. intros H. unfold clientSend. simpl. by rewrite H. Qed.

Lemma clientSend_raises ep c opts w sent0 e w' :
  send ep c opts w = (inl e, w') →
  clientSend send ep c opts {| world := w; sent := sent0 |}
  = Raised e {| world := w'; sent := sent0 ++ [c] |}.
Proof. intros H. unfold clientSend. simpl. by rewrite H. Qed.

(** X10. The queue is missing: when the look-up of the URL fails with
    [QueueDoesNotExist], [upsertQueue] creates the queue with the
    request as it is, looks the URL up again and returns it; it fetches
    no attributes and deletes nothing, whatever [force] is. *)
Theorem upsertQueue_creates input env error w1 w2 url w3 :
  send (upsert_endpoint input) (GetQueueUrlCommand (QueueName (command input)))
    noOptions (world env) = (inl error, w1) →
  instanceofQueueDoesNotExist error = true →
  send (upsert_endpoint input) (CreateQueueCommand (command input))
    noOptions w1 = (inr tt, w2) →
  send (upsert_endpoint input) (GetQueueUrlCommand (QueueName (command input)))
    noOptions w2 = (inr url, w3) →
  upsertQueue send input env
  = Returned {| upsert_queueUrl := url |}
      {| world := w3;
         sent := sent env
                 ++ [GetQueueUrlCommand (QueueName (command input));
                     CreateQueueCommand (command input);
                     GetQueueUrlCommand (QueueName (command input))] |}.
Proof.
  intros Hurl Hmissing Hcreate Hurl'. destruct env as [w0 sent0]. simpl in *.
  unfold upsertQueue, getQueueUrl.
  rewrite (clientSend_raises _ (GetQueueUrlCommand _) _ _ _ _ _ Hurl).
  unfold upsertCatch. rewrite Hmissing. unfold bind, getQueueUrl.
  rewrite (clientSend_returns _ (CreateQueueCommand _) _ _ _ _ _ Hcreate).
  rewrite (clientSend_returns _ (GetQueueUrlCommand _) _ _ _ _ _ Hurl').
  unfold ret. by rewrite <- !app_assoc.
Qed.

(** X11. The queue exists with other attributes and [force] is set:
    [upsertQueue] deletes the queue it found, creates it with the
    request, looks the URL up again and returns it, in that order. *)
Theorem upsertQueue_recreates input env url actual w1 w2 w3 w4 url' w5 :
  send (upsert_endpoint input) (GetQueueUrlCommand (QueueName (command input)))
    noOptions (world env) = (inr url, w1) →
  send (upsert_endpoint input)
    (GetQueueAttributesCommand RECOGNIZED_ATTRIBUTES url) noOptions w1
    = (inr actual, w2) →
  shallowEqual actual (expectedAttributes (command input)) = false →
  force input = true →
  send (upsert_endpoint input) (DeleteQueueCommand (Some url)) noOptions w2
    = (inr tt, w3) →
  send (upsert_endpoint input) (CreateQueueCommand (command input))
    noOptions w3 = (inr tt, w4) →
  send (upsert_endpoint input) (GetQueueUrlCommand (QueueName (command input)))
    noOptions w4 = (inr url', w5) →
  upsertQueue send input env
  = Returned {| upsert_queueUrl := url' |}
      {| world := w5;
         sent := sent env
                 ++ [GetQueueUrlCommand (QueueName (command input));
                     GetQueueAttributesCommand RECOGNIZED_ATTRIBUTES url;
                     DeleteQueueCommand (Some url);
                     CreateQueueCommand (command input);
                     GetQueueUrlCommand (QueueName (command input))] |}.
Proof.
  intros Hurl Hattrs Hdiff Hforce Hdelete Hcreate Hurl'.
  destruct env as [w0 sent0]. simpl in *.
  unfold upsertQueue, getQueueUrl.
  rewrite (clientSend_returns _ (GetQueueUrlCommand _) _ _ _ _ _ Hurl).
  unfold try_catch, checkAttributes, bind.
  rewrite (clientSend_returns _ (GetQueueAttributesCommand _ _) _ _ _ _ _ Hattrs). rewrite Hdiff. simpl.
  unfold upsertCatch. simpl. rewrite Hforce. simpl. unfold bind, getQueueUrl.
  rewrite (clientSend_returns _ (DeleteQueueCommand _) _ _ _ _ _ Hdelete).
  rewrite (clientSend_returns _ (CreateQueueCommand _) _ _ _ _ _ Hcreate).
  rewrite (clientSend_returns _ (GetQueueUrlCommand _) _ _ _ _ _ Hurl').
  unfold ret. by rewrite <- !app_assoc.
Qed.

(** X12. The queue exists with the expected attributes: [upsertQueue]
    returns the URL it found after the two reads and sends nothing that
    changes the queue, whatever [force] is. *)
Theorem upsertQueue_leaves_equal_queue input env url w1 w2 :
  send (upsert_endpoint input) (GetQueueUrlCommand (QueueName (command input)))
    noOptions (world env) = (inr url, w1) →
  send (upsert_endpoint input)
    (GetQueueAttributesCommand RECOGNIZED_ATTRIBUTES url) noOptions w1
    = (inr (Some (expectedAttributes (command input))), w2) →
  upsertQueue send input env
  = Returned {| upsert_queueUrl := url |}
      {| world := w2;
         sent := sent env
                 ++ [GetQueueUrlCommand (QueueName (command input));
                     GetQueueAttributesCommand RECOGNIZED_ATTRIBUTES url] |}.
Proof.
  intros Hurl Hattrs. destruct env as [w0 sent0]. simpl in *.
  unfold upsertQueue, getQueueUrl.
  rewrite (clientSend_returns _ (GetQueueUrlCommand _) _ _ _ _ _ Hurl).
  unfold try_catch, checkAttributes, bind.
  rewrite (clientSend_returns _ (GetQueueAttributesCommand _ _) _ _ _ _ _ Hattrs). simpl.
  rewrite bool_decide_eq_true_2 by done. simpl.
  unfold ret. by rewrite <- app_assoc.
Qed.

(** X13. A failure of the look-up of the URL that is neither
    [QueueDoesNotExist] nor, with [force], [QueueNameExists] is thrown
    on as it is after that one request: nothing is created or
    deleted. *)
Theorem upsertQueue_rethrows input env error w1 :
  send (upsert_endpoint input) (GetQueueUrlCommand (QueueName (command input)))
    noOptions (world env) = (inl error, w1) →
  instanceofQueueDoesNotExist error = false →
  instanceofQueueNameExists error && force input = false →
  upsertQueue send input env
  = Raised error
      {| world := w1;
         sent := sent env ++ [GetQueueUrlCommand (QueueName (command input))] |}.
Proof.
  intros Hurl Hmissing Hexists. destruct env as [w0 sent0]. simpl in *.
  unfold upsertQueue, getQueueUrl.
  rewrite (clientSend_raises _ (GetQueueUrlCommand _) _ _ _ _ _ Hurl).
  unfold upsertCatch. by rewrite Hmissing, Hexists.
Qed.

End Facts.

Lemma batch_size_refused_before_sending_witness :
  batchSize (batchOf 0 "orders") = Some 0%Z ∧ (0 < 1)%Z
  ∧ getMessages Service.send 5 (batchOf 0 "orders") Service.fresh
    = Raised batchSizeError Service.fresh.
Proof.
  split; [reflexivity|]. split; [lia|].
  apply (proj1 (batch_size_refused_before_sending Service.send parseNumber
                  5 (batchOf 0 "orders") 0 Service.fresh eq_refl ltac:(lia))).
Defined.

Lemma getMessages_single_receive_witness :
  batchSize (plainInput false "orders") = None
  ∧ requested
      (newlySent withOrders
         (envOf (getMessages Service.send 1 (plainInput false "orders")
                   withOrders)))
    = [10%Z].
Proof.
  split; [reflexivity|].
  apply (getMessages_single_receive Service.send 0 (plainInput false "orders")
           withOrders eq_refl).
Defined.

Lemma getMessages_exact_batch_witness :
  let input := batchOf 2 "orders" in
  let env :=
    Service.holding "orders"
      [Service.message "a" "1"; Service.message "b" "2";
       Service.message "c" "3"] in
  ∃ res env',
    honoursMaximum Service.send ∧ batchSize input = Some 2%Z ∧ (1 ≤ 2)%Z
    ∧ getMessages Service.send 5 input env = Returned res env'
    ∧ Z.of_nat (length (messages res)) = 2%Z.
Proof.
  intros input env. eexists. eexists.
  split; [exact service_honoursMaximum|].
  split; [reflexivity|]. split; [lia|].
  assert (∀ o res env',
            getMessages Service.send 5 input env = o →
            o = Returned res env' →
            getMessages Service.send 5 input env = Returned res env'
            ∧ Z.of_nat (length (messages res)) = 2%Z) as H.
  { intros o res env' Ho Hr. rewrite Ho, Hr. split; [done|].
    apply (getMessages_exact_batch Service.send 5 input 2 env res env'
             service_honoursMaximum eq_refl); [lia|]. by rewrite Ho. }
  eapply H; [reflexivity|]. vm_compute. reflexivity.
Defined.

Lemma upsertQueue_creates_witness :
  instanceofQueueDoesNotExist Service.queueDoesNotExist = true
  ∧ upsertQueue oneQueue plainRequest (queueIs false)
    = Returned {| upsert_queueUrl := "http://sqs.local/orders" |}
        {| world := true;
           sent := [GetQueueUrlCommand "orders";
                    CreateQueueCommand (command plainRequest);
                    GetQueueUrlCommand "orders"] |}.
Proof.
  split; [reflexivity|].
  exact (upsertQueue_creates oneQueue plainRequest (queueIs false)
           Service.queueDoesNotExist false true "http://sqs.local/orders" true
           eq_refl eq_refl eq_refl eq_refl).
Defined.

Lemma upsertQueue_recreates_witness :
  shallowEqual (Some DEFAULT_ATTRIBUTES)
    (expectedAttributes (command forcedDelayRequest)) = false
  ∧ force forcedDelayRequest = true
  ∧ upsertQueue oneQueue forcedDelayRequest (queueIs true)
    = Returned {| upsert_queueUrl := "http://sqs.local/orders" |}
        {| world := true;
           sent := [GetQueueUrlCommand "orders";
                    GetQueueAttributesCommand RECOGNIZED_ATTRIBUTES
                      "http://sqs.local/orders";
                    DeleteQueueCommand (Some "http://sqs.local/orders");
                    CreateQueueCommand (command forcedDelayRequest);
                    GetQueueUrlCommand "orders"] |}.
Proof.
  assert (shallowEqual (Some DEFAULT_ATTRIBUTES)
            (expectedAttributes (command forcedDelayRequest)) = false) as H
    by (vm_compute; reflexivity).
  split; [exact H|]. split; [reflexivity|].
  exact (upsertQueue_recreates oneQueue forcedDelayRequest (queueIs true)
           "http://sqs.local/orders" (Some DEFAULT_ATTRIBUTES)
           true true false true "http://sqs.local/orders" true
           eq_refl eq_refl H eq_refl eq_refl eq_refl eq_refl).
Defined.

Lemma upsertQueue_leaves_equal_queue_witness :
  oneQueue (upsert_endpoint plainRequest)
    (GetQueueAttributesCommand RECOGNIZED_ATTRIBUTES "http://sqs.local/orders")
    noOptions true
  = (inr (Some (expectedAttributes (command plainRequest))), true)
  ∧ upsertQueue oneQueue plainRequest (queueIs true)
    = Returned {| upsert_queueUrl := "http://sqs.local/orders" |}
        {| world := true;
           sent := [GetQueueUrlCommand "orders";
                    GetQueueAttributesCommand RECOGNIZED_ATTRIBUTES
                      "http://sqs.local/orders"] |}.
Proof.
  assert (oneQueue (upsert_endpoint plainRequest)
            (GetQueueAttributesCommand RECOGNIZED_ATTRIBUTES
               "http://sqs.local/orders") noOptions true
          = (inr (Some (expectedAttributes (command plainRequest))), true)) as H
    by (vm_compute; reflexivity).
  split; [exact H|].
  exact (upsertQueue_leaves_equal_queue oneQueue plainRequest (queueIs true)
           "http://sqs.local/orders" true true eq_refl H).
Defined.

Lemma upsertQueue_rethrows_witness :
  down (upsert_endpoint plainRequest) (GetQueueUrlCommand "orders") noOptions
    (world nowhere) = (inl serviceUnavailable, tt)
  ∧ instanceofQueueDoesNotExist serviceUnavailable = false
  ∧ instanceofQueueNameExists serviceUnavailable && force plainRequest = false
  ∧ upsertQueue down plainRequest nowhere
    = Raised serviceUnavailable
        {| world := tt; sent := [GetQueueUrlCommand "orders"] |}.
Proof.
  split; [reflexivity|]. split; [reflexivity|]. split; [reflexivity|].
  exact (upsertQueue_rethrows down plainRequest nowhere serviceUnavailable tt
           eq_refl eq_refl eq_refl).
Defined.

End SqsMore.

(** * More properties of the poll orchestrator *)

Module PollMore.
Import SqsLambdaHelper PollNotions MorePollNotions.

Section Facts.
Context {World : Type}.
Variable send :
  string → ∀ c : SqsHelper.Command, SqsHelper.SendOptions → World →
  (Exception + SqsHelper.Output c) * World.
Variable aborted : AbortSignal → World → bool.
Variable AWS_REGION : option string.

(** X14. A run that is given the queue's URL and a signal that has
    already fired does nothing at all: it returns at once, without a
    request, a log line or an invocation. *)
Theorem runSqsLambda_aborted_before_start polls receives input url s env :
  queue input = QueueUrl url → abortSignal input = Some s →
  aborted s (SqsHelper.world env) = true →
  runSqsLambda send aborted AWS_REGION (S polls) receives input env
  = SqsHelper.Returned tt env.
Proof.
  intros Hq Hs Ha. unfold runSqsLambda. rewrite Hq.
  unfold SqsHelper.bind, SqsHelper.ret. simpl.
  unfold keepPolling. by rewrite Hs, Ha.
Qed.

(** X15. A batch size below 1 ends the run at its first poll: the
    batch size error of [getMessages] is not an abort, so the loop
    throws it on, before any receive and any invocation. *)
Theorem pollLoop_refuses_batch_size polls receives input queueUrl env env1 :
  keepPolling aborted input (SqsHelper.world env) = true →
  logCall (Logger.info (loggerOf input)) pollingText env
    = SqsHelper.Returned tt env1 →
  (batchSize input < 1)%Z →
  pollLoop send aborted AWS_REGION (S polls) receives input queueUrl env
  = SqsHelper.Raised SqsHelper.batchSizeError env1.
Proof.
  intros Hkeep Hlog Hlt. simpl. rewrite Hkeep.
  unfold SqsHelper.bind at 1. rewrite Hlog.
  unfold SqsHelper.bind at 1. unfold poll, SqsHelper.try_catch.
  unfold SqsHelper.bind at 1. unfold SqsHelper.getMessages. simpl.
  by destruct (batchSize input <? 1)%Z eqn:E; [|apply Z.ltb_ge in E; lia].
Qed.

(** X16. The batch a poll hands over for the invocation: a delete
    request was sent for every message of it before the handler is
    invoked, so a handler that fails does not get them again; and
    against a service that never returns more than asked for, it has
    exactly [batchSize] messages. *)
Theorem polled_batch receives input queueUrl env1 messages env2 :
  poll send receives input queueUrl env1
    = SqsHelper.Returned (Some messages) env2 →
  Forall (SqsNotions.deletedBy (SqsNotions.newlySent env1 env2) queueUrl)
    messages
  ∧ (SqsNotions.honoursMaximum send → (1 ≤ batchSize input)%Z →
     Z.of_nat (length messages) = batchSize input).
Proof.
  unfold poll, SqsHelper.try_catch, SqsHelper.bind.
  destruct (SqsHelper.getMessages send receives (pollInput input queueUrl) env1)
    as [res env|e env|env] eqn:Hget; [| |done].
  - intros [= <- <-]. split.
    + by apply (SqsFacts.getMessages_deleted send (pollInput input queueUrl)
                  receives env1 res env).
    + intros Hmax Hpos. revert Hget.
      unfold SqsHelper.getMessages. simpl.
      destruct (batchSize input <? 1)%Z eqn:Hlt; [done|].
      unfold SqsHelper.bind, SqsHelper.ret.
      destruct (SqsHelper.accumulate send receives (pollInput input queueUrl)
                  [] env1) as [ms env'|e env'|env'] eqn:Hacc; [|done|done].
      intros [= <- <-]. simpl.
      by apply (SqsMore.accumulate_exact send receives
                  (pollInput input queueUrl) (batchSize input) env1 ms env').
  - by destruct (isAbortError e).
Qed.

(** X17. The event of an invocation has one record per message of the
    batch, in order, with the message's body, identifier, receipt
    handle, checksum and attributes; every record names the region (the
    one of the environment, or [us-east-1]) and the same source, built
    from the default account and the default queue name whatever queue
    is polled. *)
Theorem batchEvent_records messages :
  length (Records (batchEvent AWS_REGION messages)) = length messages
  ∧ ∀ i m,
      messages !! i = Some m →
      ∃ r,
        Records (batchEvent AWS_REGION messages) !! i = Some r
        ∧ body r = SqsHelper.Body m
        ∧ messageId r = SqsHelper.MessageId m
        ∧ receiptHandle r = SqsHelper.ReceiptHandle m
        ∧ md5OfBody r = SqsHelper.MD5OfBody m
        ∧ attributes r = SqsHelper.Attributes m
        ∧ eventSource r = "aws:sqs"
        ∧ awsRegion r = default "us-east-1" AWS_REGION
        ∧ eventSourceARN r = defaultArn AWS_REGION.
Proof.
  unfold batchEvent, toSqsEvent. simpl. split; [by rewrite length_fmap|].
  intros i m Hm. rewrite list_lookup_fmap, Hm. simpl.
  eexists. split; [reflexivity|]. simpl. by split_and!.
Qed.

(** X18. A queue given by its name is looked up once, before the
    loop: when the look-up fails the run fails with that error, without
    a log line or a poll; when it succeeds, the loop runs on the URL it
    gave. *)
Theorem runSqsLambda_looks_up_name polls receives input name env :
  queue input = QueueName name →
  match send (endpoint input) (SqsHelper.GetQueueUrlCommand name)
          SqsHelper.noOptions (SqsHelper.world env) with
  | (inl e, w) =>
      runSqsLambda send aborted AWS_REGION polls receives input env
      = SqsHelper.Raised e
          {| SqsHelper.world := w;
             SqsHelper.sent :=
               SqsHelper.sent env ++ [SqsHelper.GetQueueUrlCommand name] |}
  | (inr url, w) =>
      runSqsLambda send aborted AWS_REGION polls receives input env
      = pollLoop send aborted AWS_REGION polls receives input url
          {| SqsHelper.world := w;
             SqsHelper.sent :=
               SqsHelper.sent env ++ [SqsHelper.GetQueueUrlCommand name] |}
  end.
Proof.
  intros Hq. unfold runSqsLambda. rewrite Hq.
  unfold SqsHelper.bind, SqsHelper.clientSend.
  by destruct (send (endpoint input) (SqsHelper.GetQueueUrlCommand name)
                 SqsHelper.noOptions (SqsHelper.world env)) as [[e|url] w].
Qed.

End Facts.

Lemma runSqsLambda_aborted_before_start_witness :
  let input :=
    polling 3 resolving None (Some (Signal 0))
      (QueueUrl (Service.urlOf "orders")) in
  queue input = QueueUrl (Service.urlOf "orders")
  ∧ abortSignal input = Some (Signal 0)
  ∧ Service.aborted (Signal 0) (SqsHelper.world alreadyAborted) = true
  ∧ runSqsLambda Service.send Service.aborted None 1 3 input alreadyAborted
    = SqsHelper.Returned tt alreadyAborted.
Proof.
  intros input. split; [reflexivity|]. split; [reflexivity|].
  split; [reflexivity|].
  exact (runSqsLambda_aborted_before_start Service.send Service.aborted None
           0 3 input (Service.urlOf "orders") (Signal 0) alreadyAborted
           eq_refl eq_refl eq_refl).
Defined.

Lemma pollLoop_refuses_batch_size_witness :
  let input := polling 0 resolving None None (QueueName "orders") in
  let env := Service.holding "orders" [Service.message "a" "0"] in
  keepPolling Service.aborted input (SqsHelper.world env) = true
  ∧ logCall (Logger.info (loggerOf input)) pollingText env
    = SqsHelper.Returned tt env
  ∧ (batchSize input < 1)%Z
  ∧ pollLoop Service.send Service.aborted None 1 3 input
      (Service.urlOf "orders") env
    = SqsHelper.Raised SqsHelper.batchSizeError env.
Proof.
  intros input env. split; [reflexivity|]. split; [reflexivity|].
  split; [reflexivity|].
  apply (pollLoop_refuses_batch_size Service.send Service.aborted None 0 3
           input (Service.urlOf "orders") env env eq_refl eq_refl).
  reflexivity.
Defined.

Lemma polled_batch_witness :
  let input := polling 1 resolving None None (QueueName "orders") in
  let env := Service.holding "orders" [Service.message "a" "0"] in
  ∃ env2,
    poll Service.send 3 input (Service.urlOf "orders") env
    = SqsHelper.Returned (Some [Service.message "a" "0"]) env2
    ∧ Forall (SqsNotions.deletedBy (SqsNotions.newlySent env env2)
                (Service.urlOf "orders"))
        [Service.message "a" "0"].
Proof.
  intros input env. eexists.
  split; [vm_compute; reflexivity|].
  refine (proj1 (polled_batch Service.send 3 input (Service.urlOf "orders")
                   env [Service.message "a" "0"] _ _)).
  vm_compute; reflexivity.
Defined.

Lemma runSqsLambda_looks_up_name_witness :
  let input := polling 1 resolving None None (QueueName "orders") in
  queue input = QueueName "orders"
  ∧ runSqsLambda Service.send Service.aborted None 2 3 input Service.fresh
    = SqsHelper.Raised Service.queueDoesNotExist
        {| SqsHelper.world := Service.empty;
           SqsHelper.sent := [SqsHelper.GetQueueUrlCommand "orders"] |}.
Proof.
  intros input. split; [reflexivity|].
  exact (runSqsLambda_looks_up_name Service.send Service.aborted None 2 3
           input "orders" Service.fresh eq_refl).
Defined.

End PollMore.

(** * Properties of clearSqsQueue *)

Module ClearFacts.
Import SqsHelper ClearSqsQueue ClearNotions.

Section Facts.
Context {World : Type}.
Variable send :
  string → ∀ c : Command, SendOptions → World → (Exception + Output c) * World.
Variable sendPurge : string → string → World → (Exception + unit) * World.



End Facts.

Lemma queues_tick w : Service.queues (Service.tick w) = Service.queues w.
Proof. unfold Service.tick. by destruct (Service.abort_after w) as [[|n]|]. Qed.

Lemma filter_received_shorter (m : Message) (l : list Message) n :
  (length
     (filter (λ x, ReceiptHandle x ∉ Service.handles (toEntry <$> m :: take n l))
        (m :: l))
   ≤ length l)%nat.
Proof.
  rewrite filter_cons_False.
  - apply length_filter.
  - intros H. apply H. simpl. left.
Qed.

Lemma clearLoop_empties fuel input :
  ∀ w sent0 q,
    Service.queues w !! clean_queueUrl input = Some q →
    (length (Service.q_messages q) < fuel)%nat →
    ∃ env' q',
      clearLoop Service.send fuel input {| world := w; sent := sent0 |}
      = Returned tt env'
      ∧ Service.queues (world env') !! clean_queueUrl input = Some q'
      ∧ Service.q_messages q' = []
      ∧ Service.q_attributes q' = Service.q_attributes q.
Proof.
  induction fuel as [|fuel IH]; intros w sent0 q Hq Hlen; [lia|].
  simpl. unfold bind at 1. unfold clientSend at 1. simpl.
  unfold Service.send at 1. simpl. rewrite Hq.
  destruct (Service.q_messages q) as [|m l] eqn:Hmsgs; simpl.
  - unfold ret. eexists. exists q. split; [reflexivity|]. simpl.
    by rewrite queues_tick.
  - unfold bind at 1. unfold clientSend at 1. simpl.
    unfold Service.send at 1. simpl. rewrite queues_tick, Hq. simpl.
    rewrite Hmsgs.
    match goal with
    | |- context [clearLoop _ _ _ {| world := ?w'; sent := ?s' |}] =>
        destruct (IH w' s'
                    {| Service.q_attributes := Service.q_attributes q;
                       Service.q_messages :=
                         filter (λ x, ReceiptHandle x
                                       ∉ Service.handles
                                           (toEntry <$> m :: take 9 l))
                           (m :: l) |})
          as (env' & q' & Hrun & Hq' & Hempty & Hattrs)
    end.
    + rewrite queues_tick. simpl. by rewrite lookup_insert_eq.
    + simpl. pose proof (filter_received_shorter m l 9). simpl in *. lia.
    + exists env', q'. by split_and!.
Qed.

(** X20. Against the small queue service, a [clearSqsQueue] without
    [purge] on a queue that exists returns, within one receive more
    than the queue has messages, and leaves the queue with no message
    and with its attributes. *)
Theorem clearSqsQueue_empties fuel input w sent0 q :
  purge input = false →
  Service.queues w !! clean_queueUrl input = Some q →
  (length (Service.q_messages q) < fuel)%nat →
  ∃ env' q',
    clearSqsQueue Service.send servicePurge fuel input
      {| world := w; sent := sent0 |}
    = Returned tt env'
    ∧ Service.queues (world env') !! clean_queueUrl input = Some q'
    ∧ Service.q_messages q' = []
    ∧ Service.q_attributes q' = Service.q_attributes q.
Proof.
  intros Hpurge Hq Hlen. unfold clearSqsQueue. rewrite Hpurge.
  by apply clearLoop_empties.
Qed.


Lemma clearSqsQueue_empties_witness :
  let env := Service.holding "orders" [Service.message "a" "0"] in
  purge (clearing "orders") = false
  ∧ (length [Service.message "a" "0"] < 2)%nat
  ∧ ∃ env' q',
      clearSqsQueue Service.send servicePurge 2 (clearing "orders") env
      = Returned tt env'
      ∧ Service.queues (world env') !! Service.urlOf "orders" = Some q'
      ∧ Service.q_messages q' = [].
Proof.
  intros env. split; [reflexivity|]. split; [simpl; lia|].
  destruct (clearSqsQueue_empties 2 (clearing "orders") (world env) (sent env)
              {| Service.q_attributes :=
                   Service.q_attributes
                     (Service.created {| QueueName := "orders";
                                         cq_Attributes := None |});
                 Service.q_messages := [Service.message "a" "0"] |}
              eq_refl)
    as (env' & q' & Hrun & Hq & Hempty & _).
  - apply lookup_singleton_eq.
  - simpl; lia.
  - exists env', q'. by split_and!.
Defined.

End ClearFacts.


(** * Properties of the client cache *)

Module ClientFacts.
Import GetClient ClientNotions.
Local Set Warnings "-clear-no-such-hyp".

Lemma noClients_invariant : cacheInvariant noClients.
Proof. split; simpl; try done; intros *; by rewrite ?lookup_empty. Qed.

Lemma getClient_invariant endpoint st :
  cacheInvariant st → cacheInvariant (getClient endpoint st).2.
Proof.
  intros [Hcount Hend Hobj Hdist]. unfold getClient.
  destruct (clients st !! endpoint) as [c|] eqn:Hc; simpl; [by split|].
  split; simpl.
  - rewrite map_size_insert_None by done. by rewrite Hcount.
  - intros e c. destruct (decide (e = endpoint)) as [->|Hne].
    + rewrite lookup_insert_eq. by intros [= <-].
    + rewrite lookup_insert_ne by done. apply Hend.
  - intros e c. destruct (decide (e = endpoint)) as [->|Hne].
    + rewrite lookup_insert_eq. intros [= <-]. simpl. lia.
    + rewrite lookup_insert_ne by done. intros H%Hobj. lia.
  - intros e1 e2 c1 c2.
    destruct (decide (e1 = endpoint)) as [->|Hne1];
      destruct (decide (e2 = endpoint)) as [->|Hne2];
      rewrite ?lookup_insert_eq, ?lookup_insert_ne by done; try done.
    + intros [= <-] H2%Hobj. simpl. lia.
    + intros H1%Hobj [= <-]. simpl. lia.
    + apply Hdist.
Qed.

Lemma getClients_invariant endpoints st :
  cacheInvariant st → cacheInvariant (getClients endpoints st).
Proof.
  revert st. induction endpoints as [|e es IH]; intros st Hst; [done|].
  apply IH. by apply getClient_invariant.
Qed.

Lemma getClient_dom endpoint st :
  dom (clients (getClient endpoint st).2) = {[ endpoint ]} ∪ dom (clients st).
Proof.
  unfold getClient.
  destruct (clients st !! endpoint) as [c|] eqn:Hc; simpl.
  - apply elem_of_dom_2 in Hc. set_solver.
  - by rewrite dom_insert_L.
Qed.

Lemma getClients_dom endpoints st :
  dom (clients (getClients endpoints st))
  = list_to_set endpoints ∪ dom (clients st).
Proof.
  revert st. induction endpoints as [|e es IH]; intros st; simpl.
  - set_solver.
  - unfold getClients in *. simpl. rewrite IH, getClient_dom. set_solver.
Qed.

(** X21.  After any sequence of [#getClient] calls on a fresh cache there
    is exactly one client per endpoint asked for: the endpoints of the cache
    are those of the calls, the number of clients built is the number of
    distinct endpoints, each client was built with the endpoint it is stored
    under, and no object is stored under two endpoints. *)
Theorem getClients_one_per_endpoint endpoints :
  let st := getClients endpoints noClients in
  dom (clients st) = list_to_set endpoints
  ∧ built st = size (list_to_set (C:=gset string) endpoints)
  ∧ (∀ e c, clients st !! e = Some c → client_endpoint c = e)
  ∧ (∀ e1 e2 c1 c2,
       clients st !! e1 = Some c1 → clients st !! e2 = Some c2 →
       client_object c1 = client_object c2 → e1 = e2).
Proof.
  intros st.
  assert (dom (clients st) = list_to_set endpoints) as Hdom.
  { unfold st. rewrite getClients_dom. simpl. set_solver. }
  destruct (getClients_invariant endpoints noClients noClients_invariant)
    as [Hcount Hend _ Hdist].
  split_and!; [done| |done|done].
  fold st in Hcount. by rewrite Hcount, <-Hdom, size_dom.
Qed.

Lemma getClient_cached endpoint st :
  clients (getClient endpoint st).2 !! endpoint = Some (getClient endpoint st).1.
Proof.
  unfold getClient.
  destruct (clients st !! endpoint) as [c|] eqn:Hc; simpl; [done|].
  by rewrite lookup_insert_eq.
Qed.

Lemma getClient_keeps endpoint e c st :
  clients st !! e = Some c → clients (getClient endpoint st).2 !! e = Some c.
Proof.
  intros He. unfold getClient.
  destruct (clients st !! endpoint) as [c'|] eqn:Hc; simpl; [done|].
  rewrite lookup_insert_ne; [done|]. intros ->. congruence.
Qed.

Lemma getClients_keeps endpoints e c st :
  clients st !! e = Some c → clients (getClients endpoints st) !! e = Some c.
Proof.
  revert st. induction endpoints as [|e' es IH]; intros st He; [done|].
  apply IH. by apply getClient_keeps.
Qed.

(** X22.  A client is built once: whatever calls come after the first
    call for an endpoint, a later call for that endpoint returns the client
    of the first call and leaves the cache as it is. *)
Theorem getClient_reuses endpoint before after :
  let first := getClient endpoint (getClients before noClients) in
  let st := getClients after first.2 in
  getClient endpoint st = (first.1, st)
  ∧ getClients (before ++ endpoint :: after) noClients = st.
Proof.
  intros first st. split.
  - pose proof (getClients_keeps after endpoint first.1 first.2
                  (getClient_cached endpoint _)) as Hst.
    fold st in Hst. unfold getClient at 1. by rewrite Hst.
  - unfold st, first, getClients. by rewrite fold_left_app.
Qed.

End ClientFacts.

(** * Properties of the message attributes of an event *)

Module AttributeFacts.
Import MessageAttributes.

(** X23.  The message attributes of an event record have the names of the
    message's attributes, each with the converted value; a message without
    attributes gives none. *)
Theorem messageAttributes_lookup attrs name :
  messageAttributes attrs !! name
  = toEventAttribute <$> (attrs ≫= (.!! name)).
Proof.
  destruct attrs as [m|]; simpl; [|by rewrite lookup_empty].
  rewrite (list_fmap_ext _ (prod_map id toEventAttribute) (map_to_list m))
    by (by intros ? [??]).
  by rewrite list_to_map_fmap, list_to_map_to_list, lookup_fmap.
Qed.

Example base64_binary :
  base64 (String.list_ascii_of_string "binary") = "YmluYXJ5"
  ∧ base64 (String.list_ascii_of_string "list") = "bGlzdA=="
  ∧ base64 (String.list_ascii_of_string "ab") = "YWI=".
Proof. by split_and!. Qed.

End AttributeFacts.

(** * Properties of the Powertools logger *)

Module LoggerFacts.
Import LambdaPowertoolsLogger LoggerNotions.

Lemma wrapFrom_lookup rest i j :
  wrapFrom i rest !! j
  = (λ param,
       if isObject param && negb (isError param) then AsIs param
       else Keyed (String.append "param" (pretty (i + j)%nat)) param)
    <$> rest !! j.
Proof.
  revert i j. induction rest as [|p rest IH]; intros i [|j]; simpl; try done.
  - by rewrite Nat.add_0_r.
  - rewrite IH. by replace (S i + j)%nat with (i + S j)%nat by lia.
Qed.

(** X24.  The logger passes on one extra per parameter after the message,
    in order: the parameter itself when it is an object that is no error, or
    when it is the only one and a string or an error; otherwise the object
    with the single key [param<i>], [i] its position. *)
Theorem log_extras level params i :
  call_extras (log level params) !! i
  = extraAt (length (tail params)) i <$> tail params !! i.
Proof.
  unfold log. simpl. generalize (tail params) as rest. intros rest.
  pose proof (wrapFrom_lookup rest 0 i) as Hwrap. simpl in Hwrap.
  unfold transformRest, extraAt.
  destruct rest as [|p [|q rest]].
  - done.
  - by destruct p, i.
  - rewrite Hwrap. destruct ((p :: q :: rest) !! i) as [param|]; [|done].
    simpl. by rewrite orb_false_r.
Qed.

(** X25.  No two extras of a call are keyed alike, so none overwrites
    another when the extras are merged into the log item. *)
Theorem log_keys_distinct level params i j key1 key2 v1 v2 :
  i ≠ j →
  call_extras (log level params) !! i = Some (Keyed key1 v1) →
  call_extras (log level params) !! j = Some (Keyed key2 v2) →
  key1 ≠ key2.
Proof.
  intros Hij. rewrite !log_extras. unfold extraAt.
  destruct (tail params !! i) as [p|]; [|done].
  destruct (tail params !! j) as [q|]; [|done]. simpl.
  repeat case_match; try done.
  intros [= <- _] [= <- _] Heq.
  apply (inj (String.append "param")) in Heq.
  by apply (inj pretty) in Heq.
Qed.

Lemma log_keys_distinct_witness :
  let params := [LString "polled"; LNumber 1; LBoolean true] in
  0%nat ≠ 1%nat
  ∧ call_extras (log Info params) !! 0%nat = Some (Keyed "param0" (LNumber 1))
  ∧ call_extras (log Info params) !! 1%nat
    = Some (Keyed "param1" (LBoolean true))
  ∧ "param0" ≠ "param1".
Proof.
  intros params. split; [lia|]. split; [reflexivity|]. split; [reflexivity|].
  apply (log_keys_distinct Info params 0 1 "param0" "param1"
           (LNumber 1) (LBoolean true)); [lia|reflexivity|reflexivity].
Defined.

End LoggerFacts.

(** * Properties of the option values *)

Module OptionFacts.
Import Options OptionNotions.




Lemma parse_shift (l : list Ascii.ascii) (n : Z) :
  fold_left digitStep l n
  = (n * 10 ^ Z.of_nat (length l) + fold_left digitStep l 0)%Z.
Proof.
  revert n. induction l as [|a l IH]; intros n.
  - simpl. lia.
  - cbn [fold_left length]. rewrite IH, (IH (digitStep 0 a)).
    rewrite Nat2Z.inj_succ, Z.pow_succ_r by lia. unfold digitStep. lia.
Qed.

Lemma pretty_N_char_value (d : N) :
  (d < 10)%N →
  Z.of_nat (Ascii.nat_of_ascii (pretty_N_char d) - 48) = Z.of_N d.
Proof.
  intros Hd.
  assert (d = 0 ∨ d = 1 ∨ d = 2 ∨ d = 3 ∨ d = 4 ∨ d = 5 ∨ d = 6 ∨ d = 7
          ∨ d = 8 ∨ d = 9)%N as Hcases by lia.
  repeat (destruct Hcases as [->|Hcases]; [reflexivity|]).
  by subst.
Qed.

Lemma pretty_N_char_digit (d : N) : isDigit (pretty_N_char d) = true.
Proof. unfold pretty_N_char. by repeat case_match. Qed.

Lemma length_list_ascii s :
  length (String.list_ascii_of_string s) = String.length s.
Proof. induction s as [|a s IH]; simpl; [done|]. by rewrite IH. Qed.

Lemma pretty_N_go_value (x : N) (s : string) :
  parseInt (pretty_N_go x s)
  = (Z.of_N x * 10 ^ Z.of_nat (String.length s) + parseInt s)%Z.
Proof.
  revert s. induction (N.lt_wf_0 x) as [x _ IH]; intros s.
  assert (x = 0 ∨ 0 < x)%N as [->|Hx] by lia.
  - rewrite pretty_N_go_0. lia.
  - rewrite pretty_N_go_step by done.
    rewrite IH by (by apply N.div_lt).
    unfold parseInt. fold digitStep.
    cbn [String.list_ascii_of_string fold_left String.length].
    rewrite (parse_shift _ (digitStep 0 _)), length_list_ascii.
    unfold digitStep at 1.
    rewrite pretty_N_char_value by (by apply N.mod_lt).
    rewrite Nat2Z.inj_succ, Z.pow_succ_r by lia.
    rewrite N2Z.inj_div, N2Z.inj_mod.
    pose proof (Z.div_mod (Z.of_N x) 10 ltac:(lia)) as Hdiv.
    set (P := (10 ^ Z.of_nat (String.length s))%Z).
    set (R := fold_left _ (String.list_ascii_of_string s) 0%Z).
    change (Z.of_N 10) with 10%Z.
    set (q := (Z.of_N x `div` 10)%Z) in *.
    set (r := (Z.of_N x `mod` 10)%Z) in *.
    clearbody q r P R. rewrite Hdiv. ring.
Qed.

Lemma pretty_N_go_digits (x : N) (s : string) :
  forallb isDigit (String.list_ascii_of_string s) = true →
  forallb isDigit (String.list_ascii_of_string (pretty_N_go x s)) = true.
Proof.
  revert s. induction (N.lt_wf_0 x) as [x _ IH]; intros s Hs.
  assert (x = 0 ∨ 0 < x)%N as [->|Hx] by lia.
  - by rewrite pretty_N_go_0.
  - rewrite pretty_N_go_step by done. apply IH; [by apply N.div_lt|].
    simpl. by rewrite pretty_N_char_digit.
Qed.

Lemma pretty_N_go_nonempty (x : N) (s : string) :
  s ≠ "" → pretty_N_go x s ≠ "".
Proof.
  revert s. induction (N.lt_wf_0 x) as [x _ IH]; intros s Hs.
  assert (x = 0 ∨ 0 < x)%N as [->|Hx] by lia.
  - by rewrite pretty_N_go_0.
  - rewrite pretty_N_go_step by done. apply IH; [by apply N.div_lt|done].
Qed.

Lemma digits_not_env (s : string) :
  s ≠ "" →
  forallb isDigit (String.list_ascii_of_string s) = true →
  String.prefix "env:" s = false.
Proof.
  destruct s as [|a s]; [done|]. intros _ Hdigits.
  destruct a as [[] [] [] [] [] [] [] []]; try reflexivity; by simpl in Hdigits.
Qed.

(** X27.  The parser of the batch size and of the timeout reads the decimal
    numeral of every integer from 1 up to the largest exact integer as that
    integer, whatever the environment holds. *)
Theorem positiveIntegerParser_decimal errorMsg env (n : Z) :
  (1 ≤ n ≤ MAX_SAFE_INTEGER)%Z →
  positiveIntegerParser errorMsg env (pretty n) = inr n.
Proof.
  intros [Hn _]. destruct n as [|p|p]; try lia.
  change (pretty (Z.pos p)) with (pretty (N.pos p)).
  unfold pretty, pretty_N. rewrite decide_False by done.
  assert (pretty_N_go (N.pos p) "" ≠ "") as Hne.
  { rewrite pretty_N_go_step by lia. by apply pretty_N_go_nonempty. }
  pose proof (pretty_N_go_digits (N.pos p) "" eq_refl) as Hdigits.
  pose proof (pretty_N_go_value (N.pos p) "") as Hvalue.
  change (parseInt "") with 0%Z in Hvalue. simpl in Hvalue.
  rewrite Z.mul_1_r, Z.add_0_r in Hvalue.
  unfold positiveIntegerParser, legacyResolveOptionValue.
  rewrite digits_not_env by done. simpl negb. cbv iota.
  unfold INTEGER_STRING. rewrite Hdigits, Hvalue.
  destruct (String.eqb_spec (pretty_N_go (N.pos p) "") "") as [?|_]; [done|].
  simpl. by destruct (Z.leb_spec 1 (Z.pos p)); [|lia].
Qed.

Lemma positiveIntegerParser_decimal_witness :
  (1 ≤ 10 ≤ MAX_SAFE_INTEGER)%Z
  ∧ positiveIntegerParser "The batch size must be an integer greater or equal to 1."
      ∅ "10" = inr 10%Z.
Proof.
  assert (1 ≤ 10 ≤ MAX_SAFE_INTEGER)%Z as Hn by (unfold MAX_SAFE_INTEGER; lia).
  split; [exact Hn|].
  exact (positiveIntegerParser_decimal _ ∅ 10 Hn).
Defined.

End OptionFacts.
